(** * CrochetScript front end: tokenizer, grammar validator, figure reducer

    A shallow embedding of [lexical.py], [sintactic.py], [Code/semantic.py]
    and of the front half of [Compiler.compile] ([compiler.py]), with the
    properties of the natural-language specification proved about it.

    Conventions of the embedding
    - a Python [str] is a Rocq [string]; characters are 8-bit [ascii];
    - a Python exception is a constructor of [exn]; a call that may raise
      returns a [result];
    - [re.finditer] is modelled by [lex_from]: at each scan position the
      alternatives of the combined pattern are tried in the order of
      [token_specification]; the first one that matches yields the match
      and moves the scan position to the end of the match; where none
      matches the search moves one character on. *)

From Stdlib Require Import String Ascii List ZArith Bool Arith Lia.
From Equations Require Import Equations.
Import ListNotations.

Open Scope string_scope.
Open Scope list_scope.

Set Implicit Arguments.

(** ** Exceptions and results *)

Inductive exn : Type :=
| RuntimeError (msg : string)
| SyntaxError (msg : string)
| AttributeError (msg : string)
| IndexError (msg : string).

Inductive result (A : Type) : Type :=
| Ok (a : A)
| Raise (e : exn).

Arguments Ok {A} a.
Arguments Raise {A} e.

Definition ret {A} (a : A) : result A := Ok a.

Definition bind {A B} (m : result A) (k : A -> result B) : result B :=
  match m with
  | Ok a => k a
  | Raise e => Raise e
  end.

Notation "x <- m ;; k" := (bind m (fun x => k))
  (at level 61, m at next level, right associativity).

(** ** lexical.py *)

Record Token : Type := mkToken { type_ : string; value : string }.

(** [Token.__repr__]: f"Token({self.type_}, {self.value})". *)
Definition Token_repr (t : Token) : string :=
  ("Token(" ++ type_ t ++ ", " ++ value t ++ ")")%string.

(** The regular expressions that occur in [token_specification]. *)
Inductive pattern : Type :=
| Alt (lits : list string)      (* lit1|lit2|...  *)
| Range (lo hi : ascii)         (* [lo-hi]        *)
| Plus (set : list ascii)       (* [chars]+       *)
| Dot.                          (* .              *)

Definition tab : ascii := ascii_of_nat 9.
Definition newline : ascii := ascii_of_nat 10.

Definition token_specification : list (string * pattern) :=
  [ ("FIGURE", Alt ["addCircle"; "addSquare"; "addTriangle"; "addHeart"]);
    ("COLOR", Alt ["RED"; "PINK"; "BLUE"; "BLACK"]);
    ("KEYWORDS", Alt ["START"; "END"]);
    ("SIZE", Range "1" "5");
    ("SPECIALCHAR", Alt ["("; ")"]);
    ("SKIP", Plus [" "%char; tab]);
    ("MISMATCH", Dot) ].

(** [strip_prefix lit s]: the rest of [s] after the literal [lit], when [s]
    starts with it. *)
Fixpoint strip_prefix (lit s : string) : option string :=
  match lit with
  | EmptyString => Some s
  | String a lit' =>
      match s with
      | EmptyString => None
      | String b s' => if Ascii.eqb a b then strip_prefix lit' s' else None
      end
  end.

(** An alternation of literals: the leftmost alternative that matches. *)
Fixpoint match_alt (lits : list string) (s : string) : option (string * string) :=
  match lits with
  | [] => None
  | lit :: lits' =>
      match strip_prefix lit s with
      | Some rest => Some (lit, rest)
      | None => match_alt lits' s
      end
  end.

Definition mem (c : ascii) (set : list ascii) : bool :=
  existsb (Ascii.eqb c) set.

(** The longest run of characters of [set] at the start of [s], and what
    follows it (a greedy repetition). *)
Fixpoint span (set : list ascii) (s : string) : string * string :=
  match s with
  | EmptyString => (EmptyString, EmptyString)
  | String c s' =>
      if mem c set
      then let (run, rest) := span set s' in (String c run, rest)
      else (EmptyString, s)
  end.

Definition in_range (lo hi c : ascii) : bool :=
  (N_of_ascii lo <=? N_of_ascii c)%N && (N_of_ascii c <=? N_of_ascii hi)%N.

(** [match_pattern p s]: the match of [p] anchored at the start of [s], as
    (matched text, rest of the input). *)
Definition match_pattern (p : pattern) (s : string) : option (string * string) :=
  match p with
  | Alt lits => match_alt lits s
  | Range lo hi =>
      match s with
      | String c s' => if in_range lo hi c then Some (String c EmptyString, s') else None
      | EmptyString => None
      end
  | Plus set =>
      match s with
      | String c s' =>
          if mem c set
          then let (run, rest) := span set s' in Some (String c run, rest)
          else None
      | EmptyString => None
      end
  | Dot =>
      match s with
      | String c s' =>
          if Ascii.eqb c newline then None else Some (String c EmptyString, s')
      | EmptyString => None
      end
  end.

(** The combined pattern "(?P<K1>p1)|(?P<K2>p2)|..." anchored at the start
    of [s]: the first group that matches, as (mo.lastgroup, mo.group(),
    input after mo.end()). *)
Fixpoint match_at (spec : list (string * pattern)) (s : string)
  : option (string * string * string) :=
  match spec with
  | [] => None
  | (kind, p) :: spec' =>
      match match_pattern p s with
      | Some (v, rest) => Some (kind, v, rest)
      | None => match_at spec' s
      end
  end.

(** The match of the combined pattern at the scan position. *)
Definition scan (s : string) : option (string * string * string) :=
  match_at token_specification s.

Arguments scan : simpl never.

Definition inspect {A} (a : A) : {b : A | a = b} := exist _ a eq_refl.

Definition append_token (t : Token) (r : result (list Token)) : result (list Token) :=
  match r with
  | Ok toks => Ok (t :: toks)
  | Raise e => Raise e
  end.

(** A match splits the input at the scan position into the matched text
    and the rest. *)
Definition lexeme_consumed (s v rest : string) : Prop :=
  String.length rest + String.length v = String.length s.

Lemma strip_prefix_length lit s rest :
  strip_prefix lit s = Some rest ->
  String.length rest + String.length lit = String.length s.
Proof.
  revert s; induction lit as [|a lit IH]; intros s H; simpl in *.
  - injection H as <-. lia.
  - destruct s as [|b s]; [discriminate|].
    destruct (Ascii.eqb a b); [|discriminate].
    apply IH in H. simpl. lia.
Qed.

Lemma match_alt_length lits s v rest :
  match_alt lits s = Some (v, rest) -> lexeme_consumed s v rest.
Proof.
  induction lits as [|lit lits IH]; simpl; [discriminate|].
  destruct (strip_prefix lit s) eqn:E.
  - intros H; injection H as <- <-. now apply strip_prefix_length.
  - exact IH.
Qed.

Lemma span_length set s :
  String.length (snd (span set s)) + String.length (fst (span set s))
  = String.length s.
Proof.
  induction s as [|c s IH]; simpl; [reflexivity|].
  destruct (mem c set); simpl; [|lia].
  destruct (span set s) as [run rest]; simpl in *. lia.
Qed.

Lemma match_pattern_length p s v rest :
  match_pattern p s = Some (v, rest) -> lexeme_consumed s v rest.
Proof.
  destruct p as [lits|lo hi|set|]; simpl.
  - apply match_alt_length.
  - destruct s as [|c s]; [discriminate|].
    destruct (in_range lo hi c); [|discriminate].
    intros H; injection H as <- <-. unfold lexeme_consumed; simpl; lia.
  - destruct s as [|c s]; [discriminate|].
    destruct (mem c set); [|discriminate].
    pose proof (span_length set s) as L.
    destruct (span set s) as [run r]; simpl in L.
    intros H; injection H as <- <-. unfold lexeme_consumed; simpl; lia.
  - destruct s as [|c s]; [discriminate|].
    destruct (Ascii.eqb c newline); [discriminate|].
    intros H; injection H as <- <-. unfold lexeme_consumed; simpl; lia.
Qed.

Lemma match_at_length spec s kind v rest :
  match_at spec s = Some (kind, v, rest) -> lexeme_consumed s v rest.
Proof.
  induction spec as [|[k p] spec IH]; simpl; [discriminate|].
  destruct (match_pattern p s) as [[v' r']|] eqn:E.
  - intros H; injection H as <- <- <-. now apply match_pattern_length with p.
  - exact IH.
Qed.

(** No alternative of [token_specification] matches the empty string, so
    every match moves the scan position forward. *)
Definition nonempty (s : string) : bool :=
  match s with EmptyString => false | String _ _ => true end.

Definition never_empty (p : pattern) : bool :=
  match p with
  | Alt lits => forallb nonempty lits
  | _ => true
  end.

Lemma match_alt_In lits s v rest :
  match_alt lits s = Some (v, rest) -> In v lits /\ strip_prefix v s = Some rest.
Proof.
  induction lits as [|lit lits IH]; simpl; [discriminate|].
  destruct (strip_prefix lit s) eqn:E.
  - intros H; injection H as <- <-. auto.
  - intros H. apply IH in H. tauto.
Qed.

Lemma match_pattern_nonempty p s v rest :
  never_empty p = true -> match_pattern p s = Some (v, rest) -> nonempty v = true.
Proof.
  destruct p as [lits|lo hi|set|]; simpl; intros Hp H.
  - apply match_alt_In in H as [Hin _].
    rewrite forallb_forall in Hp. auto.
  - destruct s as [|c s]; [discriminate|].
    destruct (in_range lo hi c); [|discriminate]. now injection H as <- <-.
  - destruct s as [|c s]; [discriminate|].
    destruct (mem c set); [|discriminate].
    destruct (span set s). now injection H as <- <-.
  - destruct s as [|c s]; [discriminate|].
    destruct (Ascii.eqb c newline); [discriminate|]. now injection H as <- <-.
Qed.

Lemma match_at_nonempty_lexeme spec s kind v rest :
  forallb (fun kp => never_empty (snd kp)) spec = true ->
  match_at spec s = Some (kind, v, rest) -> nonempty v = true.
Proof.
  induction spec as [|[k p] spec IH]; simpl; [discriminate|].
  intros Hs. apply andb_prop in Hs as [Hp Hs].
  destruct (match_pattern p s) as [[v' r']|] eqn:E.
  - intros H; injection H as <- <- <-. now apply match_pattern_nonempty in E.
  - now apply IH.
Qed.

Lemma scan_nonempty s kind v rest :
  scan s = Some (kind, v, rest) -> String.length rest < String.length s.
Proof.
  unfold scan. intros H. pose proof (match_at_length _ _ H) as L.
  apply match_at_nonempty_lexeme in H; [|reflexivity].
  destruct v; [discriminate|]. unfold lexeme_consumed in L; simpl in L. lia.
Qed.

(** [LexicalAnalyzer.lex]: the loop over [re.finditer(tok_regex, code)],
    as the tokens produced from the scan position on.
    - no alternative matches at this character (the catch-all "." matches
      every character but a newline): the search resumes one character on;
    - MISMATCH: raise RuntimeError(f"{value} unexpected");
    - SKIP: continue, from the end of the match;
    - any other group: append Token(kind, value), and go on from the end
      of the match. *)
Equations? lex_from (code : string) : result (list Token)
  by wf (String.length code) lt :=
  lex_from EmptyString := Ok [];
  lex_from (String c s') with inspect (scan (String c s')) := {
    | exist _ None _ := lex_from s';
    | exist _ (Some (kind, v, rest)) e :=
        if String.eqb kind "MISMATCH" then Raise (RuntimeError (v ++ " unexpected"))
        else if String.eqb kind "SKIP" then lex_from rest
        else append_token (mkToken kind v) (lex_from rest) }.
Proof.
  all: apply scan_nonempty in e; simpl in e; lia.
Qed.

Definition lex (code : string) : result (list Token) := lex_from code.

Example lex_scenario :
  lex "START addCircle(3 RED) END" =
  Ok [mkToken "KEYWORDS" "START"; mkToken "FIGURE" "addCircle";
      mkToken "SPECIALCHAR" "("; mkToken "SIZE" "3"; mkToken "COLOR" "RED";
      mkToken "SPECIALCHAR" ")"; mkToken "KEYWORDS" "END"].
Proof. vm_compute. reflexivity. Qed.

(** ** Python lists *)

(** The position a Python index [i] denotes in a list of length [len]:
    negative indices count from the end. *)
Definition py_index (len : nat) (i : Z) : option nat :=
  if (0 <=? i)%Z && (i <? Z.of_nat len)%Z then Some (Z.to_nat i)
  else if (- Z.of_nat len <=? i)%Z && (i <? 0)%Z then Some (Z.to_nat (Z.of_nat len + i))
  else None.

(** [l[i]]. *)
Definition getitem {A} (l : list A) (i : Z) : result A :=
  match py_index (length l) i with
  | Some n =>
      match nth_error l n with
      | Some a => Ok a
      | None => Raise (IndexError "list index out of range")
      end
  | None => Raise (IndexError "list index out of range")
  end.

Fixpoint update {A} (l : list A) (n : nat) (a : A) : list A :=
  match l, n with
  | [], _ => []
  | _ :: l', O => a :: l'
  | b :: l', S n' => b :: update l' n' a
  end.

(** [l[i] = a]. *)
Definition setitem {A} (l : list A) (i : Z) (a : A) : result (list A) :=
  match py_index (length l) i with
  | Some n => Ok (update l n a)
  | None => Raise (IndexError "list assignment index out of range")
  end.

(** The truth value of a list: it is not empty. *)
Definition truthy {A} (l : list A) : bool :=
  match l with [] => false | _ :: _ => true end.

(** ** sintactic.py *)

(** The analyzer object; [stdout] is the text [figure] has printed. *)
Record SintacticAnalyzer : Type := mkAnalyzer {
  tokens : list Token;
  current_token : option Token;
  pos : Z;
  stdout : list string
}.

(** str(self.current_token) in a format string. *)
Definition str_current (o : option Token) : string :=
  match o with
  | Some t => Token_repr t
  | None => "None"
  end.

Definition syntax_error_message (expected : string) (found : option Token) : string :=
  ("Syntax error: expected " ++ expected ++ ", found " ++ str_current found)%string.

Definition error {A} (self : SintacticAnalyzer) (expected : string) : result A :=
  Raise (SyntaxError (syntax_error_message expected (current_token self))).

Definition advance (self : SintacticAnalyzer) : result SintacticAnalyzer :=
  let p := (pos self + 1)%Z in
  if (p <? Z.of_nat (length (tokens self)))%Z
  then
    t <- getitem (tokens self) p;;
    ret (mkAnalyzer (tokens self) (Some t) p (stdout self))
  else ret (mkAnalyzer (tokens self) None p (stdout self)).

(** [SintacticAnalyzer.__init__]. *)
Definition SintacticAnalyzer_init (tokens : list Token) : result SintacticAnalyzer :=
  advance (mkAnalyzer tokens None (-1) []).

(** [o.type_] and [o.value] on the current token, which may be [None]. *)
Definition getattr_type_ (o : option Token) : result string :=
  match o with
  | Some t => Ok (type_ t)
  | None => Raise (AttributeError "'NoneType' object has no attribute 'type_'")
  end.

Definition getattr_value (o : option Token) : result string :=
  match o with
  | Some t => Ok (value t)
  | None => Raise (AttributeError "'NoneType' object has no attribute 'value'")
  end.

Definition start (self : SintacticAnalyzer) : result SintacticAnalyzer :=
  ty <- getattr_type_ (current_token self);;
  cond <- (if String.eqb ty "KEYWORDS"
           then v <- getattr_value (current_token self);; ret (String.eqb v "START")
           else ret false);;
  if cond then advance self else error self "START".

(** [self.current_token and p(self.current_token)]: the current token when
    there is one and it satisfies [p]. *)
Definition current_if (self : SintacticAnalyzer) (p : Token -> bool) : option Token :=
  match current_token self with
  | Some t => if p t then Some t else None
  | None => None
  end.

Definition has_type (ty : string) (t : Token) : bool := String.eqb (type_ t) ty.

Definition is_token (ty v : string) (t : Token) : bool :=
  String.eqb (type_ t) ty && String.eqb (value t) v.

Definition end_ (self : SintacticAnalyzer) : result SintacticAnalyzer :=
  match current_if self (is_token "KEYWORDS" "END") with
  | Some _ =>
      self <- advance self;;
      match current_token self with
      | Some _ => error self "No extra tokens expected after END"
      | None => ret self
      end
  | None => error self "END"
  end.

Definition print (self : SintacticAnalyzer) (line : string) : SintacticAnalyzer :=
  mkAnalyzer (tokens self) (current_token self) (pos self) (stdout self ++ [line]).

Definition figure (self : SintacticAnalyzer) : result SintacticAnalyzer :=
  match current_if self (has_type "FIGURE") with
  | Some t0 =>
      let figure_value := value t0 in
      self <- advance self;;
      match current_if self (is_token "SPECIALCHAR" "(") with
      | Some t1 =>
          let sc_value1 := value t1 in
          self <- advance self;;
          match current_if self (has_type "SIZE") with
          | Some t2 =>
              let size_value := value t2 in
              self <- advance self;;
              match current_if self (has_type "COLOR") with
              | Some t3 =>
                  let color_value := value t3 in
                  self <- advance self;;
                  match current_if self (is_token "SPECIALCHAR" ")") with
                  | Some t4 =>
                      let sc_value2 := value t4 in
                      advance
                        (print self
                           ("Figure: " ++ figure_value ++ sc_value1 ++ size_value
                              ++ " " ++ color_value ++ sc_value2)%string)
                  | None => error self ")"
                  end
              | None => error self "COLOR"
              end
          | None => error self "SIZE"
          end
      | None => error self "( after FIGURE"
      end
  | None => error self "FIGURE"
  end.

(** What is left of the input: the measure of the loop of
    [figure_sequence]. *)
Definition remaining (self : SintacticAnalyzer) : nat :=
  Z.to_nat (Z.of_nat (length (tokens self)) - pos self).

Lemma bind_Ok {A B} (m : result A) (k : A -> result B) b :
  bind m k = Ok b -> exists a, m = Ok a /\ k a = Ok b.
Proof. destruct m as [a|e]; simpl; [eauto | discriminate]. Qed.

Lemma current_if_Some self p t :
  current_if self p = Some t -> current_token self = Some t /\ p t = true.
Proof.
  unfold current_if. destruct (current_token self) as [t'|]; [|discriminate].
  destruct (p t') eqn:E; [|discriminate]. intros H; injection H as <-. auto.
Qed.

Lemma advance_Ok self self' :
  advance self = Ok self' ->
  tokens self' = tokens self /\ pos self' = (pos self + 1)%Z /\
  stdout self' = stdout self /\
  (current_token self' <> None -> (pos self' < Z.of_nat (length (tokens self)))%Z).
Proof.
  unfold advance.
  destruct (pos self + 1 <? Z.of_nat (length (tokens self)))%Z eqn:E.
  - intros H. apply bind_Ok in H as (t & _ & H). injection H as <-. simpl.
    apply Z.ltb_lt in E. auto.
  - intros H. injection H as <-. simpl. repeat split; congruence.
Qed.

Lemma figure_Ok self self' :
  figure self = Ok self' ->
  tokens self' = tokens self /\ pos self' = (pos self + 5)%Z /\
  (pos self + 4 < Z.of_nat (length (tokens self)))%Z.
Proof.
  unfold figure. intros H.
  destruct (current_if self _) as [t0|]; [|discriminate].
  apply bind_Ok in H as (s1 & A1 & H).
  destruct (current_if s1 _) as [t1|] eqn:C1; [|discriminate].
  apply bind_Ok in H as (s2 & A2 & H).
  destruct (current_if s2 _) as [t2|] eqn:C2; [|discriminate].
  apply bind_Ok in H as (s3 & A3 & H).
  destruct (current_if s3 _) as [t3|] eqn:C3; [|discriminate].
  apply bind_Ok in H as (s4 & A4 & H).
  destruct (current_if s4 _) as [t4|] eqn:C4; [|discriminate].
  apply advance_Ok in A1 as (T1 & P1 & _ & _), A2 as (T2 & P2 & _ & _),
    A3 as (T3 & P3 & _ & _), A4 as (T4 & P4 & _ & B4), H as (T5 & P5 & _ & _).
  apply current_if_Some in C4 as [C4 _].
  simpl in *. rewrite C4 in B4. specialize (B4 ltac:(discriminate)).
  rewrite T5, T4, T3, T2, T1. rewrite T3, T2, T1 in B4. repeat split; lia.
Qed.

Lemma figure_remaining self self' :
  figure self = Ok self' -> remaining self' < remaining self.
Proof.
  intros H. apply figure_Ok in H as (T & P & B). unfold remaining.
  rewrite T, P. lia.
Qed.

(** [figure_sequence]: while the current token is a FIGURE, parse a figure. *)
Equations? figure_sequence (self : SintacticAnalyzer) : result SintacticAnalyzer
  by wf (remaining self) lt :=
  figure_sequence self with inspect (current_if self (has_type "FIGURE")) := {
    | exist _ None _ := Ok self;
    | exist _ (Some _) _ with inspect (figure self) := {
        | exist _ (Ok self') e := figure_sequence self';
        | exist _ (Raise ex) _ := Raise ex } }.
Proof.
  now apply figure_remaining.
Qed.

Definition parse (self : SintacticAnalyzer) : result SintacticAnalyzer :=
  self <- start self;;
  self <- figure_sequence self;;
  end_ self.

(** The Grammar Validator on a token sequence: construct the analyzer and
    run [parse]. *)
Definition validate (tokens : list Token) : result SintacticAnalyzer :=
  self <- SintacticAnalyzer_init tokens;;
  parse self.

(** ** Code/semantic.py *)

(** A figure tuple (figure, size, color); [None] is a field not yet set. *)
Definition figure_t : Type := string * option string * option string.

Definition is_None {A} (o : option A) : bool :=
  match o with None => true | Some _ => false end.

(** The branch of the loop body of [analyze] that a token takes. *)
Inductive branch : Type :=
| AppendFigure
| SetSize
| IgnoreSize
| SetColor
| IgnoreColor
| SkipToken.

(** The body of the loop of [analyze], for one token; it returns the
    branch taken next to the new value of [self.figures]. *)
Definition analyze_token (figures : list figure_t) (token : Token)
  : result (branch * list figure_t) :=
  if String.eqb (type_ token) "FIGURE" then
    ret (AppendFigure, figures ++ [(value token, None, None)])
  else if String.eqb (type_ token) "SIZE" then
    cond <- (if truthy figures
             then last <- getitem figures (-1);; ret (is_None (snd (fst last)))
             else ret false);;
    if cond then
      last <- getitem figures (-1);;
      figures' <- setitem figures (-1) (fst (fst last), Some (value token), None);;
      ret (SetSize, figures')
    else ret (IgnoreSize, figures)
  else if String.eqb (type_ token) "COLOR" then
    cond <- (if truthy figures
             then last <- getitem figures (-1);; ret (is_None (snd last))
             else ret false);;
    if cond then
      last0 <- getitem figures (-1);;
      last1 <- getitem figures (-1);;
      figures' <- setitem figures (-1) (fst (fst last0), snd (fst last1), Some (value token));;
      ret (SetColor, figures')
    else ret (IgnoreColor, figures)
  else ret (SkipToken, figures).

(** The loop of [analyze] over the tokens from index [i] on, given as the
    list of the tokens not yet visited; the branches taken are recorded in
    order. *)
Fixpoint analyze_loop (figures : list figure_t) (rest : list Token)
  : result (list branch * list figure_t) :=
  match rest with
  | [] => ret ([], figures)
  | token :: rest' =>
      bf <- analyze_token figures token;;
      r <- analyze_loop (snd bf) rest';;
      ret (fst bf :: fst r, snd r)
  end.

Record SemanticAnalyzer : Type := mkSemantic {
  sem_tokens : list Token;
  figures : list figure_t
}.

(** [SemanticAnalyzer.__init__]. *)
Definition SemanticAnalyzer_init (tokens_input : list Token) : SemanticAnalyzer :=
  mkSemantic tokens_input [].

(** [SemanticAnalyzer.analyze] with the branches it took. *)
Definition analyze_trace (self : SemanticAnalyzer)
  : result (list branch * list figure_t) :=
  analyze_loop (figures self) (sem_tokens self).

Definition analyze (self : SemanticAnalyzer) : result (list figure_t) :=
  r <- analyze_trace self;; ret (snd r).

(** The Figure Reducer on a token sequence. *)
Definition reduce (tokens : list Token) : result (list figure_t) :=
  analyze (SemanticAnalyzer_init tokens).

(** ** compiler.py *)

Section Pipeline.

(** The stages that [Compiler.compile] runs after the lexer. *)
Variable validator : list Token -> result SintacticAnalyzer.
Variable reducer : list Token -> result (list figure_t).

(** [Compiler.compile] up to the figures it hands to [export_pattern]. *)
Definition compile_with (code : string) : result (list figure_t) :=
  tokens_ <- lex code;;
  _ <- validator tokens_;;
  figures <- reducer tokens_;;
  ret figures.

End Pipeline.

Definition compile (code : string) : result (list figure_t) :=
  compile_with validate reduce code.

Example compile_scenario :
  compile "START addCircle(3 RED) addSquare(1 BLUE) END" =
  Ok [("addCircle", Some "3", Some "RED"); ("addSquare", Some "1", Some "BLUE")].
Proof. vm_compute. reflexivity. Qed.

Example compile_example2 :
  compile (String newline "    START" ++ String newline "    addCircle(5 BLACK)"
           ++ String newline "    addHeart(5 BLUE)" ++ String newline "    END"
           ++ String newline "    ") =
  Ok [("addCircle", Some "5", Some "BLACK"); ("addHeart", Some "5", Some "BLUE")].
Proof. vm_compute. reflexivity. Qed.

(** * Properties *)

(** ** Python list indexing at the last position *)

Lemma py_index_last len : py_index (S len) (-1) = Some len.
Proof.
  unfold py_index.
  replace (0 <=? -1)%Z with false by reflexivity.
  replace (- Z.of_nat (S len) <=? -1)%Z with true by (symmetry; apply Z.leb_le; lia).
  replace (-1 <? 0)%Z with true by reflexivity.
  cbn [andb]. f_equal. lia.
Qed.

Lemma getitem_last {A} (l : list A) (a : A) : getitem (l ++ [a]) (-1) = Ok a.
Proof.
  unfold getitem. rewrite length_app, Nat.add_1_r, py_index_last.
  rewrite nth_error_app2, Nat.sub_diag by lia. reflexivity.
Qed.

Lemma update_last {A} (l : list A) (a b : A) : update (l ++ [a]) (length l) b = l ++ [b].
Proof. induction l as [|x l IH]; simpl; [reflexivity | now rewrite IH]. Qed.

Lemma setitem_last {A} (l : list A) (a b : A) : setitem (l ++ [a]) (-1) b = Ok (l ++ [b]).
Proof.
  unfold setitem. rewrite length_app, Nat.add_1_r, py_index_last.
  now rewrite update_last.
Qed.

Lemma truthy_snoc {A} (l : list A) (a : A) : truthy (l ++ [a]) = true.
Proof. destruct l; reflexivity. Qed.

Lemma list_snoc_cases {A} (l : list A) : l = [] \/ exists l' a, l = l' ++ [a].
Proof.
  destruct l as [|x l]; [now left | right].
  destruct (exists_last (l := x :: l)) as (l' & a & E); [discriminate|]. eauto.
Qed.

(** ** The loop body of [analyze], branch by branch *)

Lemma analyze_token_figure figs v :
  analyze_token figs (mkToken "FIGURE" v) = Ok (AppendFigure, figs ++ [(v, None, None)]).
Proof. reflexivity. Qed.

Lemma analyze_token_size_set figs n c v :
  analyze_token (figs ++ [(n, None, c)]) (mkToken "SIZE" v)
  = Ok (SetSize, figs ++ [(n, Some v, None)]).
Proof.
  unfold analyze_token; simpl.
  rewrite truthy_snoc, getitem_last; simpl. now rewrite setitem_last.
Qed.

Lemma analyze_token_size_ignore_set figs n s c v :
  analyze_token (figs ++ [(n, Some s, c)]) (mkToken "SIZE" v)
  = Ok (IgnoreSize, figs ++ [(n, Some s, c)]).
Proof.
  unfold analyze_token; simpl. now rewrite truthy_snoc, getitem_last.
Qed.

Lemma analyze_token_color_set figs n s v :
  analyze_token (figs ++ [(n, s, None)]) (mkToken "COLOR" v)
  = Ok (SetColor, figs ++ [(n, s, Some v)]).
Proof.
  unfold analyze_token; simpl.
  rewrite truthy_snoc, getitem_last; simpl. now rewrite setitem_last.
Qed.

Lemma analyze_token_color_ignore_set figs n s c v :
  analyze_token (figs ++ [(n, s, Some c)]) (mkToken "COLOR" v)
  = Ok (IgnoreColor, figs ++ [(n, s, Some c)]).
Proof.
  unfold analyze_token; simpl. now rewrite truthy_snoc, getitem_last.
Qed.

Lemma analyze_token_other ty v figs :
  String.eqb ty "FIGURE" = false -> String.eqb ty "SIZE" = false ->
  String.eqb ty "COLOR" = false ->
  analyze_token figs (mkToken ty v) = Ok (SkipToken, figs).
Proof. unfold analyze_token; simpl. now intros -> -> ->. Qed.

(** The loop body never raises: the accesses to [self.figures[-1]] are
    guarded by the truth value of [self.figures]. *)
Lemma analyze_token_total figs token :
  exists b figs', analyze_token figs token = Ok (b, figs').
Proof.
  unfold analyze_token.
  destruct (String.eqb (type_ token) "FIGURE"); [simpl; eauto|].
  destruct (list_snoc_cases figs) as [->|(l & [[n s] c] & ->)].
  - destruct (String.eqb (type_ token) "SIZE"); [simpl; eauto|].
    destruct (String.eqb (type_ token) "COLOR"); simpl; eauto.
  - rewrite truthy_snoc, getitem_last.
    destruct (String.eqb (type_ token) "SIZE");
      [destruct s; simpl; rewrite ?setitem_last; simpl; eauto|].
    destruct (String.eqb (type_ token) "COLOR");
      [destruct c; simpl; rewrite ?setitem_last; simpl; eauto|].
    simpl; eauto.
Qed.

Lemma analyze_loop_total rest : forall figs,
  exists tr figs', analyze_loop figs rest = Ok (tr, figs').
Proof.
  induction rest as [|token rest IH]; intros figs; simpl; [eauto|].
  destruct (analyze_token_total figs token) as (b & figs1 & ->); simpl.
  destruct (IH figs1) as (tr & figs2 & ->); simpl. eauto.
Qed.

Lemma analyze_loop_app pre : forall figs rest,
  analyze_loop figs (pre ++ rest) =
  (r1 <- analyze_loop figs pre;;
   r2 <- analyze_loop (snd r1) rest;;
   ret (fst r1 ++ fst r2, snd r2)).
Proof.
  induction pre as [|token pre IH]; intros figs rest; simpl.
  - destruct (analyze_loop figs rest) as [[tr f]|e]; reflexivity.
  - destruct (analyze_token figs token) as [[b f1]|e]; simpl; [|reflexivity].
    rewrite IH.
    destruct (analyze_loop f1 pre) as [[tr1 f2]|e]; simpl; [|reflexivity].
    destruct (analyze_loop f2 rest) as [[tr2 f3]|e]; reflexivity.
Qed.

(** ** The cursor of the validator *)

(** [at_ self pre rest]: the analyzer holds the tokens [pre ++ rest], has
    consumed [pre], and its current token is the head of [rest] (or [None]
    at the end of the input). *)
Definition at_ (self : SintacticAnalyzer) (pre rest : list Token) : Prop :=
  tokens self = pre ++ rest /\
  pos self = Z.of_nat (length pre) /\
  current_token self = hd_error rest.

Lemma getitem_middle {A} (pre rest : list A) (a : A) :
  getitem (pre ++ a :: rest) (Z.of_nat (length pre)) = Ok a.
Proof.
  unfold getitem, py_index. rewrite length_app. simpl length.
  replace (0 <=? Z.of_nat (length pre))%Z with true by (symmetry; apply Z.leb_le; lia).
  replace (Z.of_nat (length pre) <? Z.of_nat (length pre + S (length rest)))%Z
    with true by (symmetry; apply Z.ltb_lt; lia).
  cbn [andb]. rewrite Nat2Z.id, nth_error_app2, Nat.sub_diag by lia. reflexivity.
Qed.

Lemma init_at toks :
  exists self, SintacticAnalyzer_init toks = Ok self /\ at_ self [] toks /\ stdout self = [].
Proof.
  unfold SintacticAnalyzer_init, advance.
  cbn [tokens pos stdout]. change (-1 + 1)%Z with 0%Z.
  destruct toks as [|t toks].
  - cbn. eexists; split; [reflexivity|]. repeat split.
  - replace (0 <? Z.of_nat (length (t :: toks)))%Z with true by reflexivity.
    pose proof (getitem_middle [] toks t) as G. cbn [app length Z.of_nat] in G.
    rewrite G. cbn [bind ret].
    eexists; split; [reflexivity|]. repeat split.
Qed.

Lemma advance_at self pre t rest :
  at_ self pre (t :: rest) ->
  exists self', advance self = Ok self' /\ at_ self' (pre ++ [t]) rest /\
                stdout self' = stdout self.
Proof.
  intros (T & P & C). unfold advance. rewrite T, P, length_app.
  destruct rest as [|t' rest]; simpl length.
  - replace (_ <? _)%Z with false by (symmetry; apply Z.ltb_ge; lia).
    eexists; split; [reflexivity|]. unfold at_; simpl.
    rewrite length_app; simpl. repeat split; [now rewrite <- app_assoc | lia].
  - replace (_ <? _)%Z with true by (symmetry; apply Z.ltb_lt; simpl; lia).
    replace (pre ++ t :: t' :: rest) with ((pre ++ [t]) ++ t' :: rest)
      by now rewrite <- app_assoc.
    replace (Z.of_nat (length pre) + 1)%Z with (Z.of_nat (length (pre ++ [t])))
      by (rewrite length_app; simpl; lia).
    rewrite getitem_middle. simpl.
    eexists; split; [reflexivity|]. unfold at_; simpl. repeat split.
Qed.

Lemma print_at self line pre rest : at_ self pre rest -> at_ (print self line) pre rest.
Proof. intros H; exact H. Qed.

(** A failure of the validator of the documented form: a [SyntaxError]
    whose message holds what was expected and the token found. *)
Definition syntax_failure (e : exn) : Prop :=
  exists expected found, e = SyntaxError (syntax_error_message expected found).

Lemma error_syntax_failure {A} self expected e :
  @error A self expected = Raise e -> syntax_failure e.
Proof. unfold error. intros H; injection H as <-. red; eauto. Qed.

(** The tokens of one figure clause, FIGURE "(" SIZE COLOR ")". *)
Definition clause_tokens (fsc : string * string * string) : list Token :=
  let '(f, s, c) := fsc in
  [mkToken "FIGURE" f; mkToken "SPECIALCHAR" "("; mkToken "SIZE" s;
   mkToken "COLOR" c; mkToken "SPECIALCHAR" ")"].

Definition START : Token := mkToken "KEYWORDS" "START".
Definition END : Token := mkToken "KEYWORDS" "END".

(** The token sequence of a grammar-valid program:
    START, zero or more figure clauses, END. *)
Definition program (clauses : list (string * string * string)) : list Token :=
  START :: flat_map clause_tokens clauses ++ [END].

Lemma has_type_true ty t : has_type ty t = true -> t = mkToken ty (value t).
Proof.
  unfold has_type. intros H. apply String.eqb_eq in H. destruct t; simpl in *.
  now subst.
Qed.

Lemma is_token_true ty v t : is_token ty v t = true -> t = mkToken ty v.
Proof.
  unfold is_token. intros H. apply andb_prop in H as [H1 H2].
  apply String.eqb_eq in H1, H2. destruct t; simpl in *. now subst.
Qed.

Lemma current_if_at self pre rest p :
  at_ self pre rest ->
  current_if self p =
  match rest with
  | t :: _ => if p t then Some t else None
  | [] => None
  end.
Proof. intros (_ & _ & C). unfold current_if. rewrite C. now destruct rest. Qed.

(** ** [figure]: one clause *)

Ltac fail_with_error :=
  solve [ cbn [bind]; unfold error; do 2 eexists; reflexivity ].

Ltac advance_cursor H self' H' :=
  let E := fresh "E" in
  destruct (advance_at H) as (self' & E & H' & _);
  rewrite E; cbn [bind]; clear E.

Lemma figure_spec self pre rest :
  at_ self pre rest ->
  match figure self with
  | Ok self' =>
      exists fsc rest',
        rest = clause_tokens fsc ++ rest' /\ at_ self' (pre ++ clause_tokens fsc) rest'
  | Raise e => syntax_failure e
  end.
Proof.
  intros H0. unfold figure.
  rewrite (current_if_at _ H0).
  destruct rest as [|t0 rest]; [fail_with_error|].
  destruct (has_type "FIGURE" t0) eqn:E0; [|fail_with_error].
  advance_cursor H0 s1 H1. rewrite (current_if_at _ H1).
  destruct rest as [|t1 rest]; [fail_with_error|].
  destruct (is_token "SPECIALCHAR" "(" t1) eqn:E1; [|fail_with_error].
  advance_cursor H1 s2 H2. rewrite (current_if_at _ H2).
  destruct rest as [|t2 rest]; [fail_with_error|].
  destruct (has_type "SIZE" t2) eqn:E2; [|fail_with_error].
  advance_cursor H2 s3 H3. rewrite (current_if_at _ H3).
  destruct rest as [|t3 rest]; [fail_with_error|].
  destruct (has_type "COLOR" t3) eqn:E3; [|fail_with_error].
  advance_cursor H3 s4 H4. rewrite (current_if_at _ H4).
  destruct rest as [|t4 rest]; [fail_with_error|].
  destruct (is_token "SPECIALCHAR" ")" t4) eqn:E4; [|fail_with_error].
  match goal with |- context [print s4 ?l] => pose proof (print_at l H4) as H5 end.
  advance_cursor H5 s5 H6.
  apply has_type_true in E0, E2, E3. apply is_token_true in E1, E4.
  exists (value t0, value t2, value t3), rest. subst t1 t4.
  unfold clause_tokens. rewrite <- E0, <- E2, <- E3. split; [reflexivity|].
  repeat rewrite <- app_assoc in H6. exact H6.
Qed.

Lemma figure_complete self pre fsc rest' :
  at_ self pre (clause_tokens fsc ++ rest') ->
  exists self', figure self = Ok self' /\ at_ self' (pre ++ clause_tokens fsc) rest'.
Proof.
  destruct fsc as [[f s] c]. intros H0. unfold figure. cbn [clause_tokens app] in H0.
  rewrite (current_if_at _ H0). cbn [has_type is_token type_ value String.eqb Ascii.eqb Bool.eqb andb].
  advance_cursor H0 s1 H1. rewrite (current_if_at _ H1).
  cbn [has_type is_token type_ value String.eqb Ascii.eqb Bool.eqb andb].
  advance_cursor H1 s2 H2. rewrite (current_if_at _ H2).
  cbn [has_type is_token type_ value String.eqb Ascii.eqb Bool.eqb andb].
  advance_cursor H2 s3 H3. rewrite (current_if_at _ H3).
  cbn [has_type is_token type_ value String.eqb Ascii.eqb Bool.eqb andb].
  advance_cursor H3 s4 H4. rewrite (current_if_at _ H4).
  cbn [has_type is_token type_ value String.eqb Ascii.eqb Bool.eqb andb].
  match goal with |- context [print s4 ?l] => pose proof (print_at l H4) as H5 end.
  advance_cursor H5 s5 H6.
  exists s5. split; [reflexivity|].
  repeat rewrite <- app_assoc in H6. exact H6.
Qed.

(** ** [figure_sequence]: the loop *)

Lemma figure_sequence_eq self :
  figure_sequence self =
  match current_if self (has_type "FIGURE") with
  | None => Ok self
  | Some _ =>
      match figure self with
      | Ok self' => figure_sequence self'
      | Raise ex => Raise ex
      end
  end.
Proof.
  rewrite figure_sequence_equation_1.
  destruct (inspect (current_if self (has_type "FIGURE"))) as [[t|] e];
    (symmetry; etransitivity; [rewrite e; reflexivity|]); cbn.
  - destruct (figure self); reflexivity.
  - reflexivity.
Qed.

(** The loop stops in front of a token that is not a FIGURE, or at the end
    of the input. *)
Definition not_figure_ahead (rest : list Token) : Prop :=
  match rest with
  | t :: _ => has_type "FIGURE" t = false
  | [] => True
  end.

Lemma clause_tokens_length fsc : length (clause_tokens fsc) = 5.
Proof. now destruct fsc as [[f s] c]. Qed.

Lemma figure_sequence_spec n : forall self pre rest,
  length rest <= n ->
  at_ self pre rest ->
  match figure_sequence self with
  | Ok self' =>
      exists clauses rest',
        rest = flat_map clause_tokens clauses ++ rest' /\
        at_ self' (pre ++ flat_map clause_tokens clauses) rest' /\
        not_figure_ahead rest'
  | Raise e => syntax_failure e
  end.
Proof.
  induction n as [|n IH]; intros self pre rest Hn H0;
    rewrite figure_sequence_eq, (current_if_at _ H0).
  - destruct rest; [|simpl in Hn; lia].
    exists [], []. simpl. rewrite app_nil_r. auto.
  - destruct rest as [|t rest].
    { exists [], []. simpl. rewrite app_nil_r. auto. }
    destruct (has_type "FIGURE" t) eqn:E.
    2:{ exists [], (t :: rest). simpl. rewrite app_nil_r. auto. }
    pose proof (figure_spec H0) as F.
    destruct (figure self) as [self1|e]; [|exact F].
    destruct F as (fsc & rest1 & Hr & H1).
    assert (length rest1 <= n) as Hn1.
    { apply (f_equal (@length _)) in Hr. rewrite length_app, clause_tokens_length in Hr.
      simpl in Hr, Hn. lia. }
    specialize (IH self1 _ _ Hn1 H1).
    destruct (figure_sequence self1) as [self2|e]; [|exact IH].
    destruct IH as (clauses & rest2 & Hr1 & H2 & Hnf).
    exists (fsc :: clauses), rest2. simpl flat_map.
    rewrite Hr, Hr1, <- !app_assoc in *. auto.
Qed.

Lemma figure_sequence_complete clauses : forall self pre rest',
  at_ self pre (flat_map clause_tokens clauses ++ rest') ->
  not_figure_ahead rest' ->
  exists self',
    figure_sequence self = Ok self' /\
    at_ self' (pre ++ flat_map clause_tokens clauses) rest'.
Proof.
  induction clauses as [|fsc clauses IH]; intros self pre rest' H0 Hnf;
    rewrite figure_sequence_eq, (current_if_at _ H0).
  - simpl in *. rewrite app_nil_r. exists self. split; [|exact H0].
    destruct rest' as [|t rest']; [reflexivity|]. simpl in Hnf. now rewrite Hnf.
  - simpl flat_map in *. rewrite <- app_assoc in H0.
    destruct (figure_complete _ _ H0) as (self1 & F & H1).
    destruct fsc as [[f s] c]. cbn [clause_tokens app has_type type_ String.eqb Ascii.eqb Bool.eqb].
    rewrite F.
    destruct (IH _ _ _ H1 Hnf) as (self2 & F2 & H2).
    exists self2. split; [exact F2|]. now rewrite <- app_assoc in H2.
Qed.

(** ** [start], [end] and [parse] *)

Definition NoneType_has_no_type_ : exn :=
  AttributeError "'NoneType' object has no attribute 'type_'".

Lemma start_spec self rest :
  at_ self [] rest ->
  match start self with
  | Ok self' => exists rest', rest = START :: rest' /\ at_ self' [START] rest'
  | Raise e =>
      (rest = [] /\ e = NoneType_has_no_type_) \/ (rest <> [] /\ syntax_failure e)
  end.
Proof.
  intros H0. pose proof H0 as (_ & _ & C). unfold start. rewrite C.
  destruct rest as [|t rest]; simpl hd_error; cbn [getattr_type_ getattr_value bind].
  - left. auto.
  - destruct (String.eqb (type_ t) "KEYWORDS") eqn:E1; cbn [bind ret].
    + destruct (String.eqb (value t) "START") eqn:E2.
      * assert (t = START) as -> by (apply is_token_true; unfold is_token; now rewrite E1, E2).
        destruct (advance_at H0) as (s1 & -> & H1 & _). eauto.
      * right. split; [discriminate|]. unfold error. red; eauto.
    + right. split; [discriminate|]. unfold error. red; eauto.
Qed.

Definition trailing_tokens_error (found : Token) : exn :=
  SyntaxError (syntax_error_message "No extra tokens expected after END" (Some found)).

Lemma end_spec self pre rest :
  at_ self pre rest ->
  match end_ self with
  | Ok self' => rest = [END] /\ at_ self' (pre ++ [END]) []
  | Raise e =>
      syntax_failure e /\
      forall t rest', rest = END :: t :: rest' -> e = trailing_tokens_error t
  end.
Proof.
  intros H0. unfold end_. rewrite (current_if_at _ H0).
  destruct rest as [|t rest].
  { split; [unfold error; red; eauto | discriminate]. }
  destruct (is_token "KEYWORDS" "END" t) eqn:E.
  - apply is_token_true in E. subst t. fold END in H0.
    destruct (advance_at H0) as (s1 & -> & H1 & _). cbn [bind].
    pose proof H1 as (_ & _ & C). rewrite C.
    destruct rest as [|t' rest]; simpl hd_error; cbn [ret].
    + auto.
    + split; [unfold error; red; eauto|].
      intros t rest' Hr. injection Hr as <- <-. unfold error. now rewrite C.
  - split; [unfold error; red; eauto|].
    intros t' rest' Hr. injection Hr as -> _. discriminate.
Qed.

(** What [validate] does on every token sequence. *)
Lemma validate_spec toks :
  match validate toks with
  | Ok self =>
      exists clauses, toks = program clauses /\ at_ self toks []
  | Raise e =>
      (toks = [] /\ e = NoneType_has_no_type_) \/ (toks <> [] /\ syntax_failure e)
  end.
Proof.
  unfold validate, parse.
  destruct (init_at toks) as (s0 & -> & H0 & _). cbn [bind].
  pose proof (start_spec H0) as S.
  destruct (start s0) as [s1|e]; cbn [bind]; [|exact S].
  destruct S as (rest1 & -> & H1).
  pose proof (figure_sequence_spec (Nat.le_refl _) H1) as F.
  destruct (figure_sequence s1) as [s2|e]; cbn [bind].
  2:{ right. split; [discriminate | exact F]. }
  destruct F as (clauses & rest2 & -> & H2 & _).
  pose proof (end_spec H2) as E.
  destruct (end_ s2) as [s3|e].
  - destruct E as (-> & H3). exists clauses. split; [reflexivity|].
    rewrite <- app_assoc in H3. exact H3.
  - right. split; [discriminate | apply E].
Qed.

Lemma start_complete self rest :
  at_ self [] (START :: rest) ->
  exists self', start self = Ok self' /\ at_ self' [START] rest.
Proof.
  intros H0. pose proof (start_spec H0) as S.
  pose proof H0 as (_ & _ & C). unfold start in *. rewrite C in *.
  simpl hd_error in *. cbn in S |- *.
  destruct (advance_at H0) as (s1 & E & H1 & _). rewrite E. eauto.
Qed.

Lemma end_complete self pre :
  at_ self pre [END] ->
  exists self', end_ self = Ok self' /\ at_ self' (pre ++ [END]) [].
Proof.
  intros H0. unfold end_. rewrite (current_if_at _ H0). cbn.
  destruct (advance_at H0) as (s1 & -> & H1 & _). cbn [bind].
  pose proof H1 as (_ & _ & ->). simpl. eauto.
Qed.

Lemma validate_complete clauses :
  exists self, validate (program clauses) = Ok self /\ at_ self (program clauses) [].
Proof.
  unfold validate, parse, program.
  destruct (init_at (START :: flat_map clause_tokens clauses ++ [END]))
    as (s0 & -> & H0 & _). cbn [bind].
  destruct (start_complete H0) as (s1 & -> & H1). cbn [bind].
  destruct (figure_sequence_complete _ _ H1) as (s2 & -> & H2); [reflexivity|].
  cbn [bind].
  destruct (end_complete H2) as (s3 & -> & H3).
  exists s3. split; [reflexivity|]. now rewrite <- app_assoc in H3.
Qed.

(** ** The reducer on grammar-valid programs *)

(** The triple of a clause, with both fields set. *)
Definition filled (fsc : string * string * string) : figure_t :=
  let '(f, s, c) := fsc in (f, Some s, Some c).

Definition clause_trace : list branch :=
  [AppendFigure; SkipToken; SetSize; SetColor; SkipToken].

Lemma analyze_loop_clause figs fsc :
  analyze_loop figs (clause_tokens fsc) = Ok (clause_trace, figs ++ [filled fsc]).
Proof.
  destruct fsc as [[f s] c]. unfold clause_tokens, analyze_loop.
  rewrite analyze_token_figure. cbn [bind fst snd].
  rewrite analyze_token_other by reflexivity. cbn [bind fst snd].
  rewrite analyze_token_size_set. cbn [bind fst snd].
  rewrite analyze_token_color_set. cbn [bind fst snd].
  rewrite analyze_token_other by reflexivity. reflexivity.
Qed.

Lemma analyze_loop_clauses clauses : forall figs,
  analyze_loop figs (flat_map clause_tokens clauses)
  = Ok (flat_map (fun _ => clause_trace) clauses, figs ++ map filled clauses).
Proof.
  induction clauses as [|fsc clauses IH]; intros figs; simpl flat_map; simpl map.
  - now rewrite app_nil_r.
  - rewrite analyze_loop_app, analyze_loop_clause. cbn [bind fst snd].
    rewrite IH. cbn [bind fst snd ret]. now rewrite <- app_assoc.
Qed.

Lemma analyze_trace_program clauses :
  analyze_trace (SemanticAnalyzer_init (program clauses))
  = Ok (SkipToken :: flat_map (fun _ => clause_trace) clauses ++ [SkipToken],
        map filled clauses).
Proof.
  unfold analyze_trace, SemanticAnalyzer_init, program. cbn [figures sem_tokens].
  cbn [analyze_loop]. unfold START at 1. rewrite analyze_token_other by reflexivity.
  cbn [bind fst snd]. rewrite analyze_loop_app, analyze_loop_clauses.
  cbn [bind fst snd app analyze_loop]. unfold END.
  rewrite analyze_token_other by reflexivity. reflexivity.
Qed.

Lemma reduce_program clauses : reduce (program clauses) = Ok (map filled clauses).
Proof. unfold reduce, analyze. now rewrite analyze_trace_program. Qed.

(** The FIGURE tokens of a token sequence, in order. *)
Definition figure_tokens (toks : list Token) : list Token :=
  filter (has_type "FIGURE") toks.

Definition figure_name (fg : figure_t) : string := fst (fst fg).

Lemma figure_tokens_clauses clauses :
  map value (figure_tokens (flat_map clause_tokens clauses))
  = map figure_name (map filled clauses).
Proof.
  induction clauses as [|[[f s] c] clauses IH]; [reflexivity|].
  cbn. f_equal. exact IH.
Qed.

Lemma figure_tokens_program clauses :
  map value (figure_tokens (program clauses)) = map figure_name (map filled clauses).
Proof.
  rewrite <- figure_tokens_clauses.
  unfold figure_tokens, program. cbn [filter has_type type_ START String.eqb Ascii.eqb Bool.eqb].
  rewrite filter_app. cbn [filter has_type type_ END String.eqb Ascii.eqb Bool.eqb].
  now rewrite app_nil_r.
Qed.

(** C5: for every grammar-valid program (START, zero or more figure
    clauses, END) the Grammar Validator succeeds and the Figure Reducer
    returns one triple per FIGURE token, in the order of the FIGURE
    tokens; the triple of each clause carries its size and its color. *)
Theorem valid_program_accepted_one_triple_per_figure :
  forall clauses : list (string * string * string),
    (exists self, validate (program clauses) = Ok self) /\
    exists figs,
      reduce (program clauses) = Ok figs /\
      length figs = length (figure_tokens (program clauses)) /\
      map figure_name figs = map value (figure_tokens (program clauses)) /\
      figs = map filled clauses.
Proof.
  intros clauses. split.
  - destruct (validate_complete clauses) as (self & E & _). eauto.
  - exists (map filled clauses). rewrite reduce_program.
    pose proof (figure_tokens_program clauses) as N.
    split; [reflexivity|]. split; [|split; [now symmetry | reflexivity]].
    apply (f_equal (@length _)) in N. rewrite !length_map in N.
    rewrite length_map. symmetry. exact N.
Qed.

(** C8: the input "START END" tokenizes to the two keyword tokens START
    and END, the Grammar Validator accepts them, and the Figure Reducer
    returns the empty list. *)
Theorem start_end_is_the_empty_program :
  lex "START END" = Ok [START; END] /\
  (exists self, validate [START; END] = Ok self) /\
  reduce [START; END] = Ok [] /\
  compile "START END" = Ok [].
Proof.
  assert (lex "START END" = Ok [START; END]) as L by (vm_compute; reflexivity).
  split; [|split; [|split]].
  - exact L.
  - destruct (validate_complete []) as (self & E & _). eauto.
  - exact (reduce_program []).
  - unfold compile, compile_with. rewrite L. cbn [bind].
    destruct (validate_complete []) as (self & E & _).
    pose proof (reduce_program []) as R.
    change (program []) with [START; END] in E, R. now rewrite E, R.
Qed.

(** ** Trailing tokens and the end of the input *)

(** C7: when tokens remain after the validator has matched the END
    keyword, validation fails with the syntax error about tokens after
    END, naming the first of them; hence on every token sequence that the
    validator accepts the whole sequence has been consumed: the cursor is
    past the last token and there is no current token. *)
Theorem trailing_tokens_rejected_input_consumed :
  (forall toks s0 s1 s2 tEND s3 t,
      SintacticAnalyzer_init toks = Ok s0 ->
      start s0 = Ok s1 ->
      figure_sequence s1 = Ok s2 ->
      current_if s2 (is_token "KEYWORDS" "END") = Some tEND ->
      advance s2 = Ok s3 ->
      current_token s3 = Some t ->
      validate toks = Raise (trailing_tokens_error t)) /\
  (forall clauses t extra,
      validate (START :: flat_map clause_tokens clauses ++ END :: t :: extra)
      = Raise (trailing_tokens_error t)) /\
  (forall toks self,
      validate toks = Ok self ->
      tokens self = toks /\ pos self = Z.of_nat (length toks) /\
      current_token self = None).
Proof.
  split; [|split].
  - intros toks s0 s1 s2 tEND s3 t I S F C A T.
    unfold validate, parse. rewrite I; cbn [bind]. rewrite S; cbn [bind].
    rewrite F; cbn [bind]. unfold end_. rewrite C, A; cbn [bind]. rewrite T.
    unfold error, trailing_tokens_error. now rewrite T.
  - intros clauses t extra. unfold validate, parse.
    destruct (init_at (START :: flat_map clause_tokens clauses ++ END :: t :: extra))
      as (s0 & -> & H0 & _). cbn [bind].
    destruct (start_complete H0) as (s1 & -> & H1). cbn [bind].
    destruct (figure_sequence_complete _ _ H1) as (s2 & -> & H2); [reflexivity|].
    cbn [bind]. pose proof (end_spec H2) as E.
    destruct (end_ s2) as [s3|e].
    + destruct E as [E _]. discriminate.
    + destruct E as [_ E]. now rewrite (E t extra eq_refl).
  - intros toks self V. pose proof (validate_spec toks) as S. rewrite V in S.
    destruct S as (clauses & _ & T & P & C). rewrite app_nil_r in T. auto.
Qed.

Lemma trailing_tokens_rejected_witness :
  validate [START; END; mkToken "FIGURE" "addCircle"]
  = Raise (trailing_tokens_error (mkToken "FIGURE" "addCircle")) /\
  exists self,
    validate [START; END] = Ok self /\
    tokens self = [START; END] /\ pos self = 2%Z /\ current_token self = None.
Proof.
  split.
  - eapply (proj1 trailing_tokens_rejected_input_consumed);
      try (vm_compute; reflexivity).
  - destruct (validate_complete []) as (self & E & _).
    exists self. split; [exact E|].
    exact (proj2 (proj2 trailing_tokens_rejected_input_consumed) [START; END] self E).
Defined.

(** ** Failures of the validator *)

(** C2 (the code departs from it): on the empty token sequence [start]
    reads [self.current_token.type_] while the current token is [None],
    and the failure is an [AttributeError], not a [SyntaxError]; the
    empty source text reaches it through [compile]. On every other token
    sequence a failure of the validator is a [SyntaxError] carrying what
    was expected and the token found. *)
Theorem validate_empty_raises_AttributeError :
  validate [] = Raise NoneType_has_no_type_ /\
  ~ syntax_failure NoneType_has_no_type_ /\
  compile "" = Raise NoneType_has_no_type_ /\
  (forall toks e, toks <> [] -> validate toks = Raise e -> syntax_failure e).
Proof.
  split; [vm_compute; reflexivity|]. split; [|split; [vm_compute; reflexivity|]].
  - intros (expected & found & H). discriminate.
  - intros toks e Hne V. pose proof (validate_spec toks) as S. rewrite V in S.
    destruct S as [[S _]|[_ S]]; [contradiction | exact S].
Qed.

(** ** The reducer never raises *)

(** C4: the Figure Reducer returns (it never raises) on every token
    sequence; and on every token sequence that the Grammar Validator
    accepts, no SIZE token and no COLOR token takes an ignore branch. *)
Theorem reducer_total_no_ignore_on_accepted :
  (forall toks, exists figs, reduce toks = Ok figs) /\
  (forall toks self,
      validate toks = Ok self ->
      exists trace figs,
        analyze_trace (SemanticAnalyzer_init toks) = Ok (trace, figs) /\
        ~ In IgnoreSize trace /\ ~ In IgnoreColor trace).
Proof.
  split.
  - intros toks. unfold reduce, analyze, analyze_trace, SemanticAnalyzer_init.
    cbn [figures sem_tokens].
    destruct (analyze_loop_total toks []) as (tr & figs & ->). simpl. eauto.
  - intros toks self V. pose proof (validate_spec toks) as S. rewrite V in S.
    destruct S as (clauses & -> & _). rewrite analyze_trace_program.
    do 2 eexists. split; [reflexivity|].
    assert (forall b, In b (SkipToken :: flat_map (fun _ => clause_trace) clauses
                              ++ [SkipToken]) ->
                      b <> IgnoreSize /\ b <> IgnoreColor) as Hall.
    { intros b [<-|Hb]; [split; discriminate|].
      apply in_app_or in Hb as [Hb|[<-|[]]]; [|split; discriminate].
      apply in_flat_map in Hb as (_ & _ & Hb).
      unfold clause_trace in Hb. simpl in Hb.
      repeat destruct Hb as [<-|Hb]; try (split; discriminate). contradiction. }
    split; intros Hin; apply Hall in Hin; tauto.
Qed.

Lemma reducer_no_ignore_witness :
  exists trace figs,
    analyze_trace (SemanticAnalyzer_init
                     (program [("addCircle", "3", "RED"); ("addSquare", "1", "BLUE")]))
    = Ok (trace, figs) /\
    ~ In IgnoreSize trace /\ ~ In IgnoreColor trace.
Proof.
  eapply (proj2 reducer_total_no_ignore_on_accepted). vm_compute. reflexivity.
Defined.

(** ** The fold of the specification *)

(** [on_last f figs]: [figs] with [f] applied to its last triple; the list
    is unchanged when it is empty or [f] declines. *)
Fixpoint on_last (f : figure_t -> option figure_t) (figs : list figure_t)
  : list figure_t :=
  match figs with
  | [] => []
  | [x] => match f x with Some y => [y] | None => [x] end
  | x :: rest => x :: on_last f rest
  end.

(** The step of the fold as the specification words it: FIGURE appends
    (name, unset, unset); SIZE sets the size of the last triple when that
    triple exists and its size is unset, and leaves the color as it is;
    COLOR does the same for the color; other kinds are ignored. *)
Definition spec_step (figs : list figure_t) (token : Token) : list figure_t :=
  if String.eqb (type_ token) "FIGURE" then figs ++ [(value token, None, None)]
  else if String.eqb (type_ token) "SIZE" then
    on_last (fun '(n, s, c) =>
               match s with None => Some (n, Some (value token), c) | Some _ => None end)
            figs
  else if String.eqb (type_ token) "COLOR" then
    on_last (fun '(n, s, c) =>
               match c with None => Some (n, s, Some (value token)) | Some _ => None end)
            figs
  else figs.

Definition spec_reduce (toks : list Token) : list figure_t :=
  fold_left spec_step toks [].

Lemma on_last_snoc f figs x :
  on_last f (figs ++ [x]) = figs ++ [match f x with Some y => y | None => x end].
Proof.
  induction figs as [|a figs IH]; simpl.
  - now destruct (f x).
  - rewrite IH. destruct (figs ++ [x]) eqn:E; [|reflexivity].
    now destruct figs.
Qed.

Lemma spec_reduce_clauses clauses : forall figs,
  fold_left spec_step (flat_map clause_tokens clauses) figs = figs ++ map filled clauses.
Proof.
  induction clauses as [|[[f s] c] clauses IH]; intros figs.
  - simpl. now rewrite app_nil_r.
  - change (flat_map clause_tokens ((f, s, c) :: clauses))
      with (clause_tokens (f, s, c) ++ flat_map clause_tokens clauses).
    rewrite fold_left_app.
    assert (fold_left spec_step (clause_tokens (f, s, c)) figs = figs ++ [(f, Some s, Some c)])
      as ->.
    { cbn [clause_tokens fold_left]. unfold spec_step at 5. cbn [type_ value String.eqb Ascii.eqb Bool.eqb].
      unfold spec_step at 4. cbn [type_ value String.eqb Ascii.eqb Bool.eqb].
      unfold spec_step at 3. cbn [type_ value String.eqb Ascii.eqb Bool.eqb].
      rewrite on_last_snoc.
      unfold spec_step at 2. cbn [type_ value String.eqb Ascii.eqb Bool.eqb].
      rewrite on_last_snoc.
      unfold spec_step. cbn [type_ value String.eqb Ascii.eqb Bool.eqb]. reflexivity. }
    rewrite IH. simpl map. now rewrite <- app_assoc.
Qed.

(** On grammar-valid programs the reducer and the fold of the
    specification agree. *)
Lemma reduce_program_is_spec_reduce clauses :
  reduce (program clauses) = Ok (spec_reduce (program clauses)).
Proof.
  rewrite reduce_program. f_equal. unfold spec_reduce, program.
  cbn [fold_left]. unfold spec_step at 2, START.
  cbn [type_ value String.eqb Ascii.eqb Bool.eqb].
  rewrite fold_left_app, spec_reduce_clauses. reflexivity.
Qed.

(** The loop body and the step of the specification differ in one case
    only: a SIZE token bound to a last triple whose color is already set. *)
Lemma analyze_token_vs_spec_step figs token b figs' :
  analyze_token figs token = Ok (b, figs') ->
  figs' = spec_step figs token \/
  (b = SetSize /\
   exists before n c,
     figs = before ++ [(n, None, Some c)] /\
     figs' = before ++ [(n, Some (value token), None)]).
Proof.
  unfold analyze_token, spec_step.
  destruct (String.eqb (type_ token) "FIGURE").
  { intros H; injection H as <- <-. now left. }
  destruct (list_snoc_cases figs) as [->|(l & [[n sz] c] & ->)].
  - destruct (String.eqb (type_ token) "SIZE");
      [intros H; injection H as <- <-; now left|].
    destruct (String.eqb (type_ token) "COLOR");
      intros H; injection H as <- <-; now left.
  - rewrite truthy_snoc, getitem_last, !on_last_snoc.
    destruct (String.eqb (type_ token) "SIZE").
    { destruct sz as [sz|]; cbn [bind ret fst snd is_None].
      - intros H; injection H as <- <-. now left.
      - rewrite setitem_last. cbn [bind ret].
        intros H; injection H as <- <-.
        destruct c as [c|]; [right; split; [reflexivity|]; eauto | now left]. }
    destruct (String.eqb (type_ token) "COLOR").
    { destruct c as [c|]; cbn [bind ret fst snd is_None].
      - intros H; injection H as <- <-. now left.
      - rewrite setitem_last. cbn [bind ret].
        intros H; injection H as <- <-. now left. }
    intros H; injection H as <- <-. now left.
Qed.

(** C1 (the code departs from it): the SIZE branch of [analyze] stores
    [None] in the color field, so a SIZE token bound to a triple whose
    color is already set erases that color, and a later COLOR token then
    sets it again. On FIGURE, COLOR RED, SIZE 3 the reducer returns the
    triple without color where the fold of the specification keeps RED; on
    FIGURE, COLOR RED, SIZE 3, COLOR BLUE the color that was set to RED
    ends as BLUE. *)
Theorem analyze_size_branch_erases_color :
  let fig := mkToken "FIGURE" "addCircle" in
  let red := mkToken "COLOR" "RED" in
  let three := mkToken "SIZE" "3" in
  let blue := mkToken "COLOR" "BLUE" in
  lex "addCircle RED 3 BLUE" = Ok [fig; red; three; blue] /\
  reduce [fig; red] = Ok [("addCircle", None, Some "RED")] /\
  reduce [fig; red; three] = Ok [("addCircle", Some "3", None)] /\
  spec_reduce [fig; red; three] = [("addCircle", Some "3", Some "RED")] /\
  reduce [fig; red; three; blue] = Ok [("addCircle", Some "3", Some "BLUE")] /\
  spec_reduce [fig; red; three; blue] = [("addCircle", Some "3", Some "RED")].
Proof. vm_compute. repeat split; reflexivity. Qed.

(** ** Strings *)

Lemma append_assoc (a b c : string) : ((a ++ b) ++ c = a ++ (b ++ c))%string.
Proof. induction a as [|x a IH]; simpl; [reflexivity | now rewrite IH]. Qed.

Lemma append_length (a b : string) :
  String.length (a ++ b) = String.length a + String.length b.
Proof. induction a as [|x a IH]; simpl; [reflexivity | now rewrite IH]. Qed.

Lemma strip_prefix_Some lit s rest :
  strip_prefix lit s = Some rest -> s = (lit ++ rest)%string.
Proof.
  revert s; induction lit as [|a lit IH]; intros s H; simpl in *.
  - now injection H as <-.
  - destruct s as [|b s]; [discriminate|].
    destruct (Ascii.eqb_spec a b) as [<-|]; [|discriminate].
    now rewrite (IH _ H).
Qed.

(** [occurs c s]: the character [c] occurs in the text [s]. *)
Definition occurs (c : ascii) (s : string) : Prop := In c (list_ascii_of_string s).

Lemma occurs_append c a b : occurs c (a ++ b) <-> occurs c a \/ occurs c b.
Proof.
  unfold occurs. induction a as [|x a IH]; simpl; [tauto|]. rewrite IH. tauto.
Qed.

(** ** The match at a scan position *)

Definition blanks : list ascii := [" "%char; tab].

(** The tokens whose text is fixed by the patterns: kind and lexeme. *)
Definition literal_tokens : list (string * string) :=
  [ ("FIGURE", "addCircle"); ("FIGURE", "addSquare"); ("FIGURE", "addTriangle");
    ("FIGURE", "addHeart");
    ("COLOR", "RED"); ("COLOR", "PINK"); ("COLOR", "BLUE"); ("COLOR", "BLACK");
    ("KEYWORDS", "START"); ("KEYWORDS", "END");
    ("SIZE", "1"); ("SIZE", "2"); ("SIZE", "3"); ("SIZE", "4"); ("SIZE", "5");
    ("SPECIALCHAR", "("); ("SPECIALCHAR", ")") ].

Definition size_digits : list ascii := ["1"; "2"; "3"; "4"; "5"]%char.

Lemma in_range_1_5 c : in_range "1" "5" c = true -> In c size_digits.
Proof.
  destruct c as [[] [] [] [] [] [] [] []]; intros H; vm_compute in H;
    try discriminate; simpl; auto 10.
Qed.

Lemma mem_blanks c : mem c blanks = true -> c = " "%char \/ c = tab.
Proof.
  unfold mem, blanks; simpl. rewrite orb_false_r. intros H.
  apply orb_prop in H as [H|H]; apply Ascii.eqb_eq in H; auto.
Qed.

(** What a match at the scan position can be. *)
Inductive scan_outcome (s kind v rest : string) : Prop :=
| is_literal :
    In (kind, v) literal_tokens -> s = (v ++ rest)%string ->
    scan_outcome s kind v rest
| is_blank c s' :
    s = String c s' -> mem c blanks = true -> kind = "SKIP" ->
    v = String c (fst (span blanks s')) -> rest = snd (span blanks s') ->
    scan_outcome s kind v rest
| is_mismatch c :
    s = String c rest -> kind = "MISMATCH" -> v = String c EmptyString ->
    c <> newline -> scan_outcome s kind v rest.

Ltac literal_case E :=
  let Hin := fresh "Hin" in
  let Hs := fresh "Hs" in
  let Heq := fresh "Heq" in
  apply match_alt_In in E as [Hin Hs]; apply strip_prefix_Some in Hs;
  intros Heq; injection Heq as <- <- <-;
  apply is_literal; [|assumption];
  simpl in Hin; repeat destruct Hin as [<-|Hin]; simpl; auto 20; contradiction.

Lemma scan_inv s kind v rest :
  scan s = Some (kind, v, rest) -> scan_outcome s kind v rest.
Proof.
  unfold scan, token_specification. cbn [match_at match_pattern].
  destruct (match_alt _ s) as [[v1 r1]|] eqn:E1; [literal_case E1 | clear E1].
  destruct (match_alt _ s) as [[v2 r2]|] eqn:E2; [literal_case E2 | clear E2].
  destruct (match_alt _ s) as [[v3 r3]|] eqn:E3; [literal_case E3 | clear E3].
  destruct s as [|c s]; [simpl; discriminate|].
  destruct (in_range "1" "5" c) eqn:E4.
  { intros H; injection H as <- <- <-. apply is_literal; [|reflexivity].
    apply in_range_1_5 in E4. simpl in E4.
    repeat destruct E4 as [<-|E4]; simpl; auto 20; contradiction. }
  destruct (match_alt _ (String c s)) as [[v5 r5]|] eqn:E5; [literal_case E5 | clear E5].
  fold blanks.
  destruct (mem c blanks) eqn:E6.
  { destruct (span blanks s) as [run r] eqn:E7.
    intros H; injection H as <- <- <-.
    eapply is_blank; try reflexivity; rewrite ?E7; auto. }
  destruct (Ascii.eqb_spec c newline) as [->|N]; [discriminate|].
  intros H; injection H as <- <- <-. now apply is_mismatch with c.
Qed.

Lemma scan_None c s : scan (String c s) = None -> c = newline.
Proof.
  unfold scan, token_specification. cbn [match_at match_pattern].
  repeat match goal with
  | |- context [match match_alt ?l ?x with _ => _ end] =>
      destruct (match_alt l x) as [[? ?]|]; [discriminate|]
  end.
  destruct (in_range "1" "5" c); [discriminate|].
  repeat match goal with
  | |- context [match match_alt ?l ?x with _ => _ end] =>
      destruct (match_alt l x) as [[? ?]|]; [discriminate|]
  end.
  destruct (mem c _); [destruct (span _ s); discriminate|].
  destruct (Ascii.eqb_spec c newline); [auto | discriminate].
Qed.

Lemma scan_newline s : scan (String newline s) = None.
Proof. reflexivity. Qed.

Lemma scan_literal kind v rest :
  In (kind, v) literal_tokens -> scan (v ++ rest) = Some (kind, v, rest).
Proof.
  intros H. simpl in H.
  repeat destruct H as [H|H]; try contradiction; injection H as <- <-; reflexivity.
Qed.

Lemma scan_blank c s :
  mem c blanks = true ->
  scan (String c s) = Some ("SKIP", String c (fst (span blanks s)), snd (span blanks s)).
Proof.
  intros H. apply mem_blanks in H as [->| ->];
    unfold scan, token_specification, blanks; cbn [match_at match_pattern];
    destruct (span _ s); reflexivity.
Qed.

(** ** One turn of the lexer *)

Lemma lex_from_eq c s :
  lex_from (String c s) =
  match scan (String c s) with
  | None => lex_from s
  | Some (kind, v, rest) =>
      if String.eqb kind "MISMATCH" then Raise (RuntimeError (v ++ " unexpected"))
      else if String.eqb kind "SKIP" then lex_from rest
      else append_token (mkToken kind v) (lex_from rest)
  end.
Proof.
  rewrite lex_from_equation_2.
  destruct (inspect (scan (String c s))) as [[[[k v] r]|] e];
    (symmetry; etransitivity; [rewrite e; reflexivity|]); reflexivity.
Qed.

Lemma lex_newline s : lex (String newline s) = lex s.
Proof. unfold lex. now rewrite lex_from_eq, scan_newline. Qed.

Lemma lex_literal kind v rest :
  In (kind, v) literal_tokens ->
  lex (v ++ rest) = append_token (mkToken kind v) (lex rest).
Proof.
  intros H. pose proof (scan_literal rest H) as S. unfold lex. simpl in H.
  repeat destruct H as [H|H]; try contradiction; injection H as <- <-;
    cbn [append] in *; rewrite lex_from_eq, S; reflexivity.
Qed.

Lemma lex_span s : lex s = lex (snd (span blanks s)).
Proof.
  destruct s as [|b s]; [reflexivity|]. cbn [span].
  destruct (mem b blanks) eqn:E; [|reflexivity].
  unfold lex. rewrite lex_from_eq, (scan_blank b s E). cbn [String.eqb Ascii.eqb Bool.eqb].
  now destruct (span blanks s).
Qed.

Lemma lex_blank c s : mem c blanks = true -> lex (String c s) = lex s.
Proof.
  intros E. rewrite (lex_span s). unfold lex at 1.
  rewrite lex_from_eq, (scan_blank c s E). reflexivity.
Qed.

Lemma literal_kind_not_MISMATCH v : ~ In ("MISMATCH", v) literal_tokens.
Proof. simpl. intuition discriminate. Qed.

Lemma literal_nonempty kind v : In (kind, v) literal_tokens -> v <> EmptyString.
Proof.
  simpl. intros H.
  repeat destruct H as [H|H]; try contradiction; injection H as <- <-; discriminate.
Qed.

(** The four ways a turn of the lexer can go at a scan position. *)
Inductive lex_turn (c : ascii) (s : string) : Prop :=
| turn_newline :
    c = newline -> lex (String c s) = lex s -> lex_turn c s
| turn_token kind v rest :
    In (kind, v) literal_tokens -> String c s = (v ++ rest)%string ->
    String.length rest <= String.length s ->
    lex (String c s) = append_token (mkToken kind v) (lex rest) ->
    lex_turn c s
| turn_blank :
    mem c blanks = true -> lex (String c s) = lex s -> lex_turn c s
| turn_mismatch :
    c <> newline -> scan (String c s) = Some ("MISMATCH", String c EmptyString, s) ->
    lex (String c s) = Raise (RuntimeError (String c " unexpected")) ->
    lex_turn c s.

Lemma lex_turns c s : lex_turn c s.
Proof.
  destruct (scan (String c s)) as [[[k v] r]|] eqn:E.
  - destruct (scan_inv _ E) as [Hin Hs | c' s' Hs Hb -> -> -> | c' Hs -> -> Hn].
    + apply turn_token with k v r; [assumption | assumption | | ].
      * pose proof (literal_nonempty Hin) as Hne.
        apply (f_equal String.length) in Hs. rewrite append_length in Hs.
        destruct v; [congruence|]. simpl in Hs. lia.
      * rewrite Hs. now apply lex_literal.
    + injection Hs as <- <-. apply turn_blank; [assumption | now apply lex_blank].
    + injection Hs as <- <-. apply turn_mismatch; [assumption | assumption |].
      unfold lex. now rewrite lex_from_eq, E.
  - apply scan_None in E as ->. apply turn_newline; [reflexivity | apply lex_newline].
Qed.

Lemma append_token_Ok t r toks :
  append_token t r = Ok toks -> exists toks', r = Ok toks' /\ toks = t :: toks'.
Proof. destruct r; simpl; intros H; [injection H as <-; eauto | discriminate]. Qed.

Lemma append_token_Raise t r e : append_token t r = Raise e -> r = Raise e.
Proof. destruct r; simpl; intros H; [discriminate | exact H]. Qed.

(** ** Tokenizing a text in two parts *)

(** When a prefix tokenizes, the tokens of the whole text are those of the
    prefix followed by those of the rest. *)
Lemma lex_app n : forall pre x toks,
  String.length pre <= n ->
  lex pre = Ok toks ->
  lex (pre ++ x) =
  match lex x with
  | Ok toks' => Ok (toks ++ toks')
  | Raise e => Raise e
  end.
Proof.
  induction n as [|n IH]; intros pre x toks Hn L.
  - destruct pre; [|simpl in Hn; lia]. injection L as <-. simpl. now destruct (lex x).
  - destruct pre as [|c pre].
    { injection L as <-. simpl. now destruct (lex x). }
    simpl in Hn.
    destruct (lex_turns c pre) as [-> E | k v r Hin Hs Hl E | Hb E | _ _ E];
      rewrite E in L.
    + cbn [append]. rewrite lex_newline. apply IH; [lia | exact L].
    + apply append_token_Ok in L as (toks' & L & ->).
      rewrite Hs, append_assoc, (lex_literal _ Hin).
      rewrite (IH r x toks') by (lia || assumption).
      now destruct (lex x).
    + cbn [append]. rewrite lex_blank by exact Hb. apply IH; [lia | exact L].
    + discriminate.
Qed.

(** Every token that the lexer emits is one of the literal tokens. *)
Lemma lex_tokens_literal n : forall s toks,
  String.length s <= n ->
  lex s = Ok toks ->
  Forall (fun t => In (type_ t, value t) literal_tokens) toks.
Proof.
  induction n as [|n IH]; intros s toks Hn L.
  - destruct s; [|simpl in Hn; lia]. injection L as <-. constructor.
  - destruct s as [|c s]; [injection L as <-; constructor|]. simpl in Hn.
    destruct (lex_turns c s) as [-> E | k v r Hin Hs Hl E | Hb E | _ _ E];
      rewrite E in L.
    + apply (IH s); [lia | exact L].
    + apply append_token_Ok in L as (toks' & L & ->).
      constructor; [exact Hin | apply (IH r); [lia | exact L]].
    + apply (IH s); [lia | exact L].
    + discriminate.
Qed.

(** A failure of the lexer names the first character at which no token
    pattern matches; the text before it tokenizes. *)
Lemma lex_Raise_inv n : forall s e,
  String.length s <= n ->
  lex s = Raise e ->
  exists pre c post toks,
    s = (pre ++ String c post)%string /\ lex pre = Ok toks /\
    c <> newline /\
    scan (String c post) = Some ("MISMATCH", String c EmptyString, post) /\
    e = RuntimeError (String c " unexpected").
Proof.
  induction n as [|n IH]; intros s e Hn L.
  - destruct s; [discriminate | simpl in Hn; lia].
  - destruct s as [|c s]; [discriminate|]. simpl in Hn.
    destruct (lex_turns c s) as [-> E | k v r Hin Hs Hl E | Hb E | Hc Hm E];
      rewrite E in L.
    + destruct (IH s e) as (pre & c' & post & toks & -> & Lp & R); [lia | exact L |].
      exists (String newline pre), c', post, toks.
      rewrite lex_newline. auto.
    + apply append_token_Raise in L.
      destruct (IH r e) as (pre & c' & post & toks & -> & Lp & R); [lia | exact L |].
      exists (v ++ pre)%string, c', post, (mkToken k v :: toks).
      rewrite Hs, append_assoc, (lex_literal _ Hin), Lp. auto.
    + destruct (IH s e) as (pre & c' & post & toks & -> & Lp & R); [lia | exact L |].
      exists (String c pre), c', post, toks.
      rewrite lex_blank by exact Hb. auto.
    + injection L as <-. exists EmptyString, c, s, []. auto.
Qed.

(** ** Characters outside the token patterns *)

(** The patterns that classify input: all of [token_specification] but the
    catch-all MISMATCH. *)
Definition token_patterns : list (string * pattern) := removelast token_specification.

(** [occurs_in c p]: the character [c] can occur in a match of [p]. *)
Definition occurs_in (c : ascii) (p : pattern) : bool :=
  match p with
  | Alt lits => existsb (fun lit => mem c (list_ascii_of_string lit)) lits
  | Range lo hi => in_range lo hi c
  | Plus set => mem c set
  | Dot => negb (Ascii.eqb c newline)
  end.

(** [outside_patterns c]: [c] occurs in no match of any token pattern. *)
Definition outside_patterns (c : ascii) : bool :=
  forallb (fun kp => negb (occurs_in c (snd kp))) token_patterns.

Lemma literal_chars_inside kind v c :
  In (kind, v) literal_tokens -> occurs c v -> outside_patterns c = false.
Proof.
  intros Hin Hocc. simpl in Hin.
  repeat destruct Hin as [Hin|Hin]; try contradiction; injection Hin as <- <-;
    unfold occurs in Hocc; simpl in Hocc;
    repeat destruct Hocc as [<-|Hocc]; try contradiction; reflexivity.
Qed.

Lemma blank_inside c : mem c blanks = true -> outside_patterns c = false.
Proof. intros H. apply mem_blanks in H as [->| ->]; reflexivity. Qed.

Lemma occurs_head c s : occurs c (String c s).
Proof. now left. Qed.

(** At a character outside the patterns, other than a newline, the lexer
    raises and names it. *)
Lemma lex_outside c s :
  outside_patterns c = true -> c <> newline ->
  lex (String c s) = Raise (RuntimeError (String c " unexpected")).
Proof.
  intros Ho Hn.
  destruct (lex_turns c s) as [-> E | k v r Hin Hs Hl E | Hb E | _ _ E].
  - contradiction.
  - pose proof (literal_nonempty Hin) as Hne.
    destruct v as [|c' v]; [contradiction|]. injection Hs as <- _.
    rewrite (literal_chars_inside c Hin (occurs_head c v)) in Ho. discriminate.
  - rewrite (blank_inside _ Hb) in Ho. discriminate.
  - exact E.
Qed.

Lemma lex_prefix_then_outside pre c post toks :
  lex pre = Ok toks -> outside_patterns c = true -> c <> newline ->
  lex (pre ++ String c post) = Raise (RuntimeError (String c " unexpected")).
Proof.
  intros L Ho Hn.
  rewrite lex_app with (n := String.length pre) (toks := toks) by auto.
  now rewrite lex_outside.
Qed.

(** A text that holds a character outside the patterns, other than a
    newline, does not tokenize. *)
Lemma lex_outside_fails n : forall s c toks,
  String.length s <= n ->
  occurs c s -> outside_patterns c = true -> c <> newline ->
  lex s <> Ok toks.
Proof.
  induction n as [|n IH]; intros s c toks Hn Hocc Ho Hnl L.
  - destruct s; [destruct Hocc | simpl in Hn; lia].
  - destruct s as [|c0 s]; [destruct Hocc|]. simpl in Hn.
    destruct (lex_turns c0 s) as [-> E | k v r Hin Hs Hl E | Hb E | _ _ E];
      rewrite E in L.
    + destruct Hocc as [<-|Hocc]; [contradiction|].
      apply (IH s c toks); auto; lia.
    + apply append_token_Ok in L as (toks' & L & _).
      rewrite Hs in Hocc. apply occurs_append in Hocc as [Hocc|Hocc].
      * rewrite (literal_chars_inside c Hin Hocc) in Ho. discriminate.
      * apply (IH r c toks'); auto; lia.
    + destruct Hocc as [<-|Hocc].
      * rewrite (blank_inside _ Hb) in Ho. discriminate.
      * apply (IH s c toks); auto; lia.
    + discriminate.
Qed.

(** ** Unmatched characters *)

(** What C6 says fails in two ways: a newline belongs to no pattern of
    [token_specification], not even to MISMATCH, and is skipped without an
    error; and of two characters outside the patterns only the first is
    named. *)
Lemma newline_outside_patterns_is_not_an_error :
  (outside_patterns newline = true /\
   occurs newline (String newline EmptyString) /\
   lex (String newline EmptyString) = Ok []) /\
  (outside_patterns "$" = true /\ occurs "$" "#$" /\
   lex "#$" = Raise (RuntimeError "# unexpected") /\
   lex "#$" <> Raise (RuntimeError "$ unexpected")).
Proof.
  split; [split; [reflexivity | split; [now left | reflexivity]]|].
  split; [reflexivity|]. split; [right; now left|].
  assert (lex "#$" = Raise (RuntimeError "# unexpected")) as -> by (vm_compute; reflexivity).
  split; [reflexivity | discriminate].
Qed.

(** C6 (amended): a text that holds a character which belongs to no token
    pattern and is not a newline fails to tokenize with the error
    "<c> unexpected", where <c> is the first character at which no pattern
    matches, the text before it being tokenized; <c> is that very
    character when the text before it tokenizes. The error of the lexer is
    the result of [compile] whatever the validator and the reducer are:
    neither runs. *)
Theorem lex_reports_first_unmatched_character :
  (forall s c,
      occurs c s -> outside_patterns c = true -> c <> newline ->
      exists pre c' post toks,
        s = (pre ++ String c' post)%string /\ lex pre = Ok toks /\
        c' <> newline /\
        scan (String c' post) = Some ("MISMATCH", String c' EmptyString, post) /\
        lex s = Raise (RuntimeError (String c' " unexpected"))) /\
  (forall pre c post toks,
      lex pre = Ok toks -> outside_patterns c = true -> c <> newline ->
      lex (pre ++ String c post) = Raise (RuntimeError (String c " unexpected"))) /\
  (forall validator reducer code e,
      lex code = Raise e -> compile_with validator reducer code = Raise e).
Proof.
  split; [|split].
  - intros s c Hocc Ho Hn.
    destruct (lex s) as [toks|e] eqn:L.
    + exfalso. exact (@lex_outside_fails _ s c toks (Nat.le_refl _) Hocc Ho Hn L).
    + destruct (@lex_Raise_inv _ s e (Nat.le_refl _) L)
        as (pre & c' & post & toks & Hs & Lp & Hn' & Hm & ->).
      exists pre, c', post, toks. auto.
  - intros pre c post toks. apply lex_prefix_then_outside.
  - intros validator reducer code e L. unfold compile_with. now rewrite L.
Qed.

Lemma lex_reports_hash_witness :
  lex ("START " ++ String "#" " END") = Raise (RuntimeError "# unexpected") /\
  (exists pre c' post toks,
      "a#" = (pre ++ String c' post)%string /\ lex pre = Ok toks /\
      c' <> newline /\
      scan (String c' post) = Some ("MISMATCH", String c' EmptyString, post) /\
      lex "a#" = Raise (RuntimeError (String c' " unexpected"))) /\
  compile "START # END" = Raise (RuntimeError "# unexpected").
Proof.
  split; [|split].
  - apply (proj1 (proj2 lex_reports_first_unmatched_character)) with (toks := [START]).
    + vm_compute. reflexivity.
    + reflexivity.
    + discriminate.
  - apply (proj1 lex_reports_first_unmatched_character "a#" "#"%char).
    + right. left. reflexivity.
    + reflexivity.
    + discriminate.
  - unfold compile. apply (proj2 (proj2 lex_reports_first_unmatched_character)).
    vm_compute. reflexivity.
Defined.

(** ** Sizes *)

(** What C3 says fails for a digit outside 1-5: the character 6 is not
    turned into a SIZE token, the lexer raises on it. *)
Lemma six_is_a_lexical_error :
  lex "6" = Raise (RuntimeError "6 unexpected") /\
  lex "6" <> Ok [mkToken "SIZE" "6"] /\
  lex "addCircle(6 RED)" = Raise (RuntimeError "6 unexpected").
Proof.
  assert (lex "6" = Raise (RuntimeError "6 unexpected")) as E by (vm_compute; reflexivity).
  split; [exact E|]. split; [rewrite E; discriminate | vm_compute; reflexivity].
Qed.

Definition size_token (d : ascii) : Token := mkToken "SIZE" (String d EmptyString).

Lemma size_digit_literal d :
  In d size_digits -> In ("SIZE", String d EmptyString) literal_tokens.
Proof.
  simpl. intros H. repeat destruct H as [<-|H]; try contradiction; auto 20.
Qed.

Lemma literal_size_digit v :
  In ("SIZE", v) literal_tokens -> exists d, In d size_digits /\ v = String d EmptyString.
Proof.
  simpl. intros H.
  repeat destruct H as [H|H]; try contradiction; try discriminate;
    injection H as <-; eexists; (split; [|reflexivity]); simpl; auto 10.
Qed.

Lemma lex_digits ds :
  Forall (fun d => In d size_digits) ds ->
  lex (string_of_list_ascii ds) = Ok (map size_token ds).
Proof.
  induction 1 as [|d ds Hd _ IH]; [reflexivity|].
  change (string_of_list_ascii (d :: ds))
    with (String d EmptyString ++ string_of_list_ascii ds)%string.
  rewrite (lex_literal _ (size_digit_literal Hd)), IH. reflexivity.
Qed.

(** C3 (amended): every SIZE token that the tokenizer emits is a single
    character, one of the digits 1-5; a number written with several of
    these digits is tokenized digit by digit, one SIZE token each; a digit
    outside 1-5 (0, 6, 7, 8, 9) met after a tokenized prefix is not a token
    but a lexical error naming it. *)
Theorem size_tokens_are_single_digits :
  (forall s toks t,
      lex s = Ok toks -> In t toks -> type_ t = "SIZE" ->
      String.length (value t) = 1 /\
      exists d, In d size_digits /\ t = size_token d) /\
  (forall ds,
      Forall (fun d => In d size_digits) ds ->
      lex (string_of_list_ascii ds) = Ok (map size_token ds)) /\
  (forall pre d post toks,
      lex pre = Ok toks -> In d ["0"; "6"; "7"; "8"; "9"]%char ->
      lex (pre ++ String d post) = Raise (RuntimeError (String d " unexpected"))).
Proof.
  split; [|split].
  - intros s toks t L Hin Hty.
    pose proof (@lex_tokens_literal _ s toks (Nat.le_refl _) L) as F.
    rewrite Forall_forall in F. specialize (F t Hin). rewrite Hty in F.
    apply literal_size_digit in F as (d & Hd & Hv).
    split; [now rewrite Hv|]. exists d. split; [exact Hd|].
    destruct t as [ty v]; simpl in *. unfold size_token. congruence.
  - exact lex_digits.
  - intros pre d post toks L Hd. apply lex_prefix_then_outside with toks.
    + exact L.
    + simpl in Hd. repeat destruct Hd as [<-|Hd]; try contradiction; reflexivity.
    + simpl in Hd. repeat destruct Hd as [<-|Hd]; try contradiction; discriminate.
Qed.

Lemma twelve_is_two_size_tokens :
  lex "12" = Ok [mkToken "SIZE" "1"; mkToken "SIZE" "2"] /\
  (String.length (value (mkToken "SIZE" "3")) = 1 /\
   exists d, In d size_digits /\ mkToken "SIZE" "3" = size_token d) /\
  lex ("addCircle(" ++ String "6" " RED)") = Raise (RuntimeError "6 unexpected").
Proof.
  split; [|split].
  - apply (proj1 (proj2 size_tokens_are_single_digits) ["1"; "2"]%char).
    apply Forall_cons; [simpl; auto|]. apply Forall_cons; [simpl; auto|].
    apply Forall_nil.
  - apply (proj1 size_tokens_are_single_digits "addCircle(3 RED)"
             [mkToken "FIGURE" "addCircle"; mkToken "SPECIALCHAR" "(";
              mkToken "SIZE" "3"; mkToken "COLOR" "RED"; mkToken "SPECIALCHAR" ")"]).
    + vm_compute. reflexivity.
    + right. right. left. reflexivity.
    + reflexivity.
  - apply (proj2 (proj2 size_tokens_are_single_digits)) with
      (toks := [mkToken "FIGURE" "addCircle"; mkToken "SPECIALCHAR" "("]).
    + vm_compute. reflexivity.
    + simpl. auto.
Defined.

(** ** Newlines *)

Definition newline_to_space (c : ascii) : ascii :=
  if Ascii.eqb c newline then " "%char else c.

(** The text with every newline replaced by a space. *)
Fixpoint replace_newlines (s : string) : string :=
  match s with
  | EmptyString => EmptyString
  | String c s' => String (newline_to_space c) (replace_newlines s')
  end.

Lemma replace_newlines_append a b :
  replace_newlines (a ++ b) = (replace_newlines a ++ replace_newlines b)%string.
Proof. induction a as [|x a IH]; simpl; [reflexivity | now rewrite IH]. Qed.

Lemma replace_newlines_literal kind v :
  In (kind, v) literal_tokens -> replace_newlines v = v.
Proof.
  simpl. intros H.
  repeat destruct H as [H|H]; try contradiction; injection H as <- <-; reflexivity.
Qed.

Lemma literal_no_space kind v :
  In (kind, v) literal_tokens -> ~ occurs " " v.
Proof.
  intros Hin Hocc. pose proof (literal_chars_inside " " Hin Hocc) as H.
  simpl in Hin.
  repeat destruct Hin as [Hin|Hin]; try contradiction; injection Hin as <- <-;
    unfold occurs in Hocc; simpl in Hocc;
    repeat destruct Hocc as [Hocc|Hocc]; try contradiction; discriminate.
Qed.

Lemma replace_newlines_prefix v : forall s r,
  ~ occurs " " v ->
  replace_newlines s = (v ++ r)%string -> exists r', s = (v ++ r')%string.
Proof.
  induction v as [|a v IH]; intros s r Hv H; simpl in *.
  - eauto.
  - destruct s as [|c s]; [discriminate|]. simpl in H. injection H as Hc Hs.
    assert (c = a) as ->.
    { unfold newline_to_space in Hc. destruct (Ascii.eqb c newline); [|exact Hc].
      exfalso. apply Hv. left. now symmetry. }
    destruct (IH s r) as (r' & ->); [unfold occurs in *; simpl in *; tauto | exact Hs |].
    eauto.
Qed.

Lemma replace_newlines_length s : String.length (replace_newlines s) = String.length s.
Proof. induction s; simpl; congruence. Qed.

Lemma lex_replace_newlines n : forall s,
  String.length s <= n -> lex (replace_newlines s) = lex s.
Proof.
  induction n as [|n IH]; intros s Hn.
  - destruct s; [reflexivity | simpl in Hn; lia].
  - destruct s as [|c s]; [reflexivity|]. simpl in Hn.
    destruct (lex_turns c s) as [-> E | k v r Hin Hs Hl E | Hb E | Hc Hm E];
      rewrite E.
    + cbn [replace_newlines]. change (newline_to_space newline) with " "%char.
      rewrite lex_blank by reflexivity. apply IH. lia.
    + rewrite Hs, replace_newlines_append, (replace_newlines_literal Hin).
      rewrite (lex_literal _ Hin), IH by lia. reflexivity.
    + assert (newline_to_space c = c) as Hcc.
      { apply mem_blanks in Hb as [->| ->]; reflexivity. }
      cbn [replace_newlines]. rewrite Hcc, lex_blank by exact Hb. apply IH. lia.
    + assert (newline_to_space c = c) as Hcc.
      { unfold newline_to_space. destruct (Ascii.eqb_spec c newline); congruence. }
      cbn [replace_newlines]. rewrite Hcc.
      destruct (lex_turns c (replace_newlines s))
        as [-> _ | k v r Hin Hs _ _ | Hb _ | _ _ E'].
      * contradiction.
      * exfalso.
        assert (replace_newlines (String c s) = (v ++ r)%string) as Hr
          by (cbn [replace_newlines]; now rewrite Hcc).
        apply replace_newlines_prefix in Hr as (r' & Hr);
          [|exact (literal_no_space Hin)].
        rewrite Hr, (scan_literal r' Hin) in Hm. injection Hm as -> _ _.
        exact (literal_kind_not_MISMATCH Hin).
      * rewrite (scan_blank c s Hb) in Hm. discriminate.
      * exact E'.
Qed.

(** C9: tokenizing a text gives the same result, tokens or error, as
    tokenizing the text with its newlines replaced by spaces; no emitted
    token holds a newline; and the character that a lexical error names is
    never a newline. *)
Theorem newlines_are_skipped_as_whitespace :
  forall s,
    lex s = lex (replace_newlines s) /\
    (forall toks t, lex s = Ok toks -> In t toks -> ~ occurs newline (value t)) /\
    (forall e, lex s = Raise e ->
               exists c, c <> newline /\ e = RuntimeError (String c " unexpected")).
Proof.
  intros s. split; [|split].
  - symmetry. now apply lex_replace_newlines with (String.length s).
  - intros toks t L Hin Hocc.
    pose proof (@lex_tokens_literal _ s toks (Nat.le_refl _) L) as F.
    rewrite Forall_forall in F. specialize (F t Hin).
    pose proof (literal_chars_inside newline F Hocc). discriminate.
  - intros e L.
    destruct (@lex_Raise_inv _ s e (Nat.le_refl _) L)
      as (pre & c & post & toks & _ & _ & Hn & _ & ->).
    eauto.
Qed.

Lemma newlines_are_skipped_witness :
  ~ occurs newline (value END) /\
  exists c, c <> newline /\
            RuntimeError "# unexpected" = RuntimeError (String c " unexpected").
Proof.
  split.
  - apply (proj1 (proj2 (newlines_are_skipped_as_whitespace
                           ("START" ++ String newline "END"))))
      with (toks := [START; END]).
    + vm_compute. reflexivity.
    + right. left. reflexivity.
  - apply (proj2 (proj2 (newlines_are_skipped_as_whitespace
                           (String newline "#")))).
    vm_compute. reflexivity.
Defined.

(** ** Filled triples *)

Definition figure_texts : list string := ["addCircle"; "addSquare"; "addTriangle"; "addHeart"].
Definition size_texts : list string := ["1"; "2"; "3"; "4"; "5"].
Definition color_texts : list string := ["RED"; "PINK"; "BLUE"; "BLACK"].

(** A triple with both fields set, from the vocabulary of the language. *)
Definition well_filled (fg : figure_t) : Prop :=
  exists f s c,
    fg = (f, Some s, Some c) /\
    In f figure_texts /\ In s size_texts /\ In c color_texts.

(** A triple with both fields set. *)
Definition fully_filled (fg : figure_t) : Prop :=
  exists f s c, fg = (f, Some s, Some c).

(** What C10 says fails for token sequences that the tokenizer did not
    produce: the validator checks the kind of the FIGURE, SIZE and COLOR
    tokens only, so it accepts a SIZE token 9 and a COLOR token GREEN, and
    the reducer returns them. *)
Lemma validator_accepts_unknown_size_and_color :
  let toks := program [("addCircle", "9", "GREEN")] in
  (exists self, validate toks = Ok self) /\
  reduce toks = Ok [("addCircle", Some "9", Some "GREEN")] /\
  ~ In "9" size_texts /\ ~ In "GREEN" color_texts /\
  ~ Forall well_filled [("addCircle", Some "9", Some "GREEN")].
Proof.
  cbv zeta. split; [|split; [|split; [|split]]].
  - destruct (validate_complete [("addCircle", "9", "GREEN")]) as (self & E & _). eauto.
  - exact (reduce_program [("addCircle", "9", "GREEN")]).
  - simpl. intuition discriminate.
  - simpl. intuition discriminate.
  - intros F. inversion F as [|? ? (f & s & c & E & _ & Hs & _) _]; subst.
    injection E as <- <- <-. simpl in Hs. intuition discriminate.
Qed.

Lemma clause_tokens_in_program f s c clauses :
  In (f, s, c) clauses ->
  In (mkToken "FIGURE" f) (program clauses) /\
  In (mkToken "SIZE" s) (program clauses) /\
  In (mkToken "COLOR" c) (program clauses).
Proof.
  intros H. unfold program.
  assert (forall t, In t (clause_tokens (f, s, c)) ->
                    In t (START :: flat_map clause_tokens clauses ++ [END])) as I.
  { intros t Ht. right. apply in_or_app. left. apply in_flat_map. eauto. }
  repeat split; apply I; simpl; auto.
Qed.

Lemma literal_vocabulary kind v :
  In (kind, v) literal_tokens ->
  (kind = "FIGURE" -> In v figure_texts) /\
  (kind = "SIZE" -> In v size_texts) /\
  (kind = "COLOR" -> In v color_texts).
Proof.
  simpl. intros H.
  repeat destruct H as [H|H]; try contradiction; injection H as <- <-;
    repeat split; intros E; try discriminate E; simpl; auto 10.
Qed.

(** C10 (amended): for every token sequence that the Grammar Validator
    accepts, every triple that the Figure Reducer returns has its size and
    its color set; when the token sequence is the one the tokenizer
    produced from a source text, the figure is one of the four commands,
    the size one of the digits 1-5 and the color one of the four names. *)
Theorem accepted_tokens_give_filled_triples :
  (forall toks self,
      validate toks = Ok self ->
      exists figs, reduce toks = Ok figs /\ Forall fully_filled figs) /\
  (forall code toks self,
      lex code = Ok toks ->
      validate toks = Ok self ->
      exists figs, reduce toks = Ok figs /\ Forall well_filled figs).
Proof.
  split.
  - intros toks self V. pose proof (validate_spec toks) as S. rewrite V in S.
    destruct S as (clauses & -> & _). exists (map filled clauses).
    split; [apply reduce_program|].
    apply Forall_forall. intros fg Hfg. apply in_map_iff in Hfg as ([[f s] c] & <- & _).
    red. simpl. eauto.
  - intros code toks self L V. pose proof (validate_spec toks) as S. rewrite V in S.
    destruct S as (clauses & -> & _). exists (map filled clauses).
    split; [apply reduce_program|].
    pose proof (@lex_tokens_literal _ code _ (Nat.le_refl _) L) as F.
    rewrite Forall_forall in F.
    apply Forall_forall. intros fg Hfg. apply in_map_iff in Hfg as ([[f s] c] & <- & Hin).
    destruct (clause_tokens_in_program _ _ _ _ Hin) as (Hf & Hs & Hc).
    apply F in Hf, Hs, Hc. simpl in Hf, Hs, Hc.
    exists f, s, c. split; [reflexivity|].
    split; [|split].
    + now apply (literal_vocabulary Hf).
    + now apply (literal_vocabulary Hs).
    + now apply (literal_vocabulary Hc).
Qed.

Lemma accepted_tokens_witness :
  (exists figs,
      reduce (program [("addCircle", "3", "RED"); ("addSquare", "1", "BLUE")]) = Ok figs /\
      Forall well_filled figs) /\
  (exists figs,
      reduce (program [("addCircle", "9", "GREEN")]) = Ok figs /\
      Forall fully_filled figs).
Proof.
  split.
  - eapply (proj2 accepted_tokens_give_filled_triples)
      with (code := "START addCircle(3 RED) addSquare(1 BLUE) END").
    + vm_compute. reflexivity.
    + vm_compute. reflexivity.
  - eapply (proj1 accepted_tokens_give_filled_triples). vm_compute. reflexivity.
Defined.

(** * Further properties of the front end *)

(** ** Layout of a source text *)

(** A character that the lexer passes over: space, tab or newline. *)
Definition is_layout (c : ascii) : bool := mem c blanks || Ascii.eqb c newline.

(** The text without its spaces, tabs and newlines. *)
Fixpoint strip_layout (s : string) : string :=
  match s with
  | EmptyString => EmptyString
  | String c s' => if is_layout c then strip_layout s' else String c (strip_layout s')
  end.

(** A text made of spaces, tabs and newlines only. *)
Fixpoint all_layout (s : string) : bool :=
  match s with
  | EmptyString => true
  | String c s' => is_layout c && all_layout s'
  end.

(** The texts of the tokens, one after the other. *)
Definition token_texts (toks : list Token) : string :=
  fold_right (fun t acc => (value t ++ acc)%string) EmptyString toks.

(** A token of the vocabulary: its kind and text are one of the literal
    tokens. *)
Definition in_vocabulary (t : Token) : Prop := In (type_ t, value t) literal_tokens.

(** Tokens laid out in a text: before each token, and after the last one,
    any layout. *)
Fixpoint render (items : list (string * Token)) (trailer : string) : string :=
  match items with
  | [] => trailer
  | (gap, t) :: items' => (gap ++ value t ++ render items' trailer)%string
  end.

Lemma lex_layout gap : forall s, all_layout gap = true -> lex (gap ++ s) = lex s.
Proof.
  induction gap as [|c gap IH]; intros s H; [reflexivity|].
  simpl in H. apply andb_prop in H as [Hc H]. cbn [append].
  unfold is_layout in Hc. apply orb_prop in Hc as [Hc|Hc].
  - rewrite lex_blank by exact Hc. now apply IH.
  - apply Ascii.eqb_eq in Hc as ->. rewrite lex_newline. now apply IH.
Qed.

Lemma strip_layout_append a b :
  strip_layout (a ++ b) = (strip_layout a ++ strip_layout b)%string.
Proof.
  induction a as [|c a IH]; [reflexivity|]. simpl.
  destruct (is_layout c); simpl; now rewrite IH.
Qed.

Lemma strip_layout_literal kind v : In (kind, v) literal_tokens -> strip_layout v = v.
Proof.
  simpl. intros H.
  repeat destruct H as [H|H]; try contradiction; injection H as <- <-; reflexivity.
Qed.

Lemma token_eta t : mkToken (type_ t) (value t) = t.
Proof. now destruct t. Qed.

Lemma append_empty_r (s : string) : (s ++ "")%string = s.
Proof. induction s as [|c s IH]; simpl; [reflexivity | now rewrite IH]. Qed.

(** X1: tokens of the vocabulary laid out with any amount of spaces, tabs
    and newlines between them (none is needed: the token texts delimit
    themselves) tokenize to exactly those tokens, in order. *)
Theorem lex_render_round_trip :
  forall items trailer,
    Forall (fun it => all_layout (fst it) = true /\ in_vocabulary (snd it)) items ->
    all_layout trailer = true ->
    lex (render items trailer) = Ok (map snd items).
Proof.
  intros items trailer H Ht.
  induction H as [|[gap t] items [Hg Hv] _ IH]; cbn [render map snd].
  - rewrite <- (append_empty_r trailer). now rewrite lex_layout.
  - simpl in Hg, Hv. rewrite lex_layout by exact Hg.
    rewrite (lex_literal _ Hv), IH. cbn [append_token]. now rewrite token_eta.
Qed.

Lemma lex_render_witness :
  lex (render [("  ", START); ("", mkToken "FIGURE" "addHeart");
               ("", mkToken "SPECIALCHAR" "("); ("", mkToken "SIZE" "2");
               ("", mkToken "COLOR" "PINK"); (String tab "", mkToken "SPECIALCHAR" ")");
               (String newline "", END)] " ")
  = Ok [START; mkToken "FIGURE" "addHeart"; mkToken "SPECIALCHAR" "(";
        mkToken "SIZE" "2"; mkToken "COLOR" "PINK"; mkToken "SPECIALCHAR" ")"; END].
Proof.
  apply (@lex_render_round_trip
           [("  ", START); ("", mkToken "FIGURE" "addHeart");
            ("", mkToken "SPECIALCHAR" "("); ("", mkToken "SIZE" "2");
            ("", mkToken "COLOR" "PINK"); (String tab "", mkToken "SPECIALCHAR" ")");
            (String newline "", END)] " ").
  - repeat (apply Forall_cons; [split; [reflexivity | red; simpl; tauto]|]).
    apply Forall_nil.
  - reflexivity.
Defined.

Lemma lex_token_texts n : forall s toks,
  String.length s <= n -> lex s = Ok toks -> token_texts toks = strip_layout s.
Proof.
  induction n as [|n IH]; intros s toks Hn L.
  - destruct s; [|simpl in Hn; lia]. now injection L as <-.
  - destruct s as [|c s]; [now injection L as <-|]. simpl in Hn.
    destruct (lex_turns c s) as [-> E | k v r Hin Hs Hl E | Hb E | _ _ E];
      rewrite E in L.
    + cbn [strip_layout]. change (is_layout newline) with true. cbv iota.
      apply IH; [lia | exact L].
    + apply append_token_Ok in L as (toks' & L & ->).
      rewrite Hs, strip_layout_append, (strip_layout_literal Hin).
      cbn [token_texts fold_right value]. f_equal. apply IH; [lia | exact L].
    + cbn [strip_layout]. unfold is_layout. rewrite Hb. cbn [orb].
      apply IH; [lia | exact L].
    + discriminate.
Qed.

(** X2: when a text tokenizes, the texts of its tokens put end to end are
    the text without its spaces, tabs and newlines: the lexer drops
    nothing else and alters nothing. *)
Theorem lex_keeps_the_text :
  forall s toks, lex s = Ok toks -> token_texts toks = strip_layout s.
Proof. intros s toks. now apply lex_token_texts with (String.length s). Qed.

Lemma lex_keeps_the_text_witness :
  token_texts [START; mkToken "FIGURE" "addCircle"; mkToken "SPECIALCHAR" "(";
               mkToken "SIZE" "3"; mkToken "COLOR" "RED"; mkToken "SPECIALCHAR" ")"; END]
  = strip_layout "START addCircle(3 RED) END".
Proof.
  apply lex_keeps_the_text. vm_compute. reflexivity.
Defined.

(** X3: when a text tokenizes, the result for the text followed by any
    other text is its tokens followed by the result for the other text,
    tokens or error. *)
Theorem lex_of_concatenation :
  forall a b toks,
    lex a = Ok toks ->
    lex (a ++ b) =
    match lex b with
    | Ok toks' => Ok (toks ++ toks')
    | Raise e => Raise e
    end.
Proof. intros a b toks L. now apply lex_app with (String.length a). Qed.

Lemma lex_of_concatenation_witness :
  lex ("START " ++ "addCircle(3") =
  match lex "addCircle(3" with
  | Ok toks' => Ok ([START] ++ toks')
  | Raise e => Raise e
  end.
Proof.
  apply lex_of_concatenation. vm_compute. reflexivity.
Defined.

(** X4: every token that the lexer emits belongs to the vocabulary: its
    kind is FIGURE, COLOR, KEYWORDS, SIZE or SPECIALCHAR with one of the
    texts of that kind; no SKIP or MISMATCH token is ever emitted, and
    there are at most as many tokens as characters. *)
Theorem lex_emits_vocabulary_only :
  forall s toks,
    lex s = Ok toks ->
    Forall in_vocabulary toks /\
    Forall (fun t => type_ t <> "SKIP" /\ type_ t <> "MISMATCH") toks /\
    length toks <= String.length s.
Proof.
  intros s toks L.
  pose proof (@lex_tokens_literal _ s toks (Nat.le_refl _) L) as F.
  split; [exact F|]. split.
  - apply Forall_forall. intros t Ht. rewrite Forall_forall in F.
    specialize (F t Ht). simpl in F.
    split; intros E; rewrite E in F; intuition discriminate.
  - pose proof (@lex_token_texts _ s toks (Nat.le_refl _) L) as T.
    assert (length toks <= String.length (token_texts toks)) as B.
    { clear -F. induction F as [|t toks Ht _ IH]; [simpl; lia|].
      cbn [token_texts fold_right length]. rewrite append_length.
      pose proof (literal_nonempty Ht) as Hne.
      destruct (value t); [contradiction|]. simpl. fold (token_texts toks). lia. }
    assert (forall x, String.length (strip_layout x) <= String.length x) as S.
    { induction x as [|c x IHx]; simpl; [lia|]. destruct (is_layout c); simpl; lia. }
    rewrite T in B. specialize (S s). lia.
Qed.

Lemma lex_emits_vocabulary_witness :
  Forall in_vocabulary [mkToken "SIZE" "1"; mkToken "COLOR" "RED"] /\
  Forall (fun t => type_ t <> "SKIP" /\ type_ t <> "MISMATCH")
         [mkToken "SIZE" "1"; mkToken "COLOR" "RED"] /\
  length [mkToken "SIZE" "1"; mkToken "COLOR" "RED"] <= String.length "1 RED".
Proof.
  apply lex_emits_vocabulary_only. vm_compute. reflexivity.
Defined.

(** ** The validator: acceptance, output and failures *)

(** X5: the validator accepts a token sequence exactly when it is START,
    zero or more clauses FIGURE "(" SIZE COLOR ")", END. *)
Theorem validate_accepts_exactly_the_grammar :
  forall toks,
    (exists self, validate toks = Ok self) <->
    (exists clauses, toks = program clauses).
Proof.
  intros toks. split.
  - intros (self & V). pose proof (validate_spec toks) as S. rewrite V in S.
    destruct S as (clauses & -> & _). eauto.
  - intros (clauses & ->). destruct (validate_complete clauses) as (self & V & _). eauto.
Qed.

(** The line that [figure] prints for a clause. *)
Definition figure_line (fsc : string * string * string) : string :=
  let '(f, s, c) := fsc in ("Figure: " ++ f ++ "(" ++ s ++ " " ++ c ++ ")")%string.

Ltac advance_cursor_out H self' H' O :=
  let E := fresh "E" in
  destruct (advance_at H) as (self' & E & H' & O);
  rewrite E; cbn [bind]; clear E.

Lemma figure_prints self pre fsc rest' :
  at_ self pre (clause_tokens fsc ++ rest') ->
  exists self',
    figure self = Ok self' /\ at_ self' (pre ++ clause_tokens fsc) rest' /\
    stdout self' = stdout self ++ [figure_line fsc].
Proof.
  destruct fsc as [[f s] c]. intros H0. unfold figure. cbn [clause_tokens app] in H0.
  rewrite (current_if_at _ H0). cbn [has_type is_token type_ value String.eqb Ascii.eqb Bool.eqb andb].
  advance_cursor_out H0 s1 H1 O1. rewrite (current_if_at _ H1).
  cbn [has_type is_token type_ value String.eqb Ascii.eqb Bool.eqb andb].
  advance_cursor_out H1 s2 H2 O2. rewrite (current_if_at _ H2).
  cbn [has_type is_token type_ value String.eqb Ascii.eqb Bool.eqb andb].
  advance_cursor_out H2 s3 H3 O3. rewrite (current_if_at _ H3).
  cbn [has_type is_token type_ value String.eqb Ascii.eqb Bool.eqb andb].
  advance_cursor_out H3 s4 H4 O4. rewrite (current_if_at _ H4).
  cbn [has_type is_token type_ value String.eqb Ascii.eqb Bool.eqb andb].
  match goal with |- context [print s4 ?l] => pose proof (print_at l H4) as H5 end.
  advance_cursor_out H5 s5 H6 O5.
  exists s5. split; [reflexivity|]. split.
  - repeat rewrite <- app_assoc in H6. exact H6.
  - rewrite O5. cbn [print stdout]. rewrite O4, O3, O2, O1. reflexivity.
Qed.

Lemma figure_sequence_prints clauses : forall self pre rest',
  at_ self pre (flat_map clause_tokens clauses ++ rest') ->
  not_figure_ahead rest' ->
  exists self',
    figure_sequence self = Ok self' /\
    stdout self' = stdout self ++ map figure_line clauses.
Proof.
  induction clauses as [|fsc clauses IH]; intros self pre rest' H0 Hnf;
    rewrite figure_sequence_eq, (current_if_at _ H0).
  - simpl in *. exists self. rewrite app_nil_r. split; [|reflexivity].
    destruct rest' as [|t rest']; [reflexivity|]. simpl in Hnf. now rewrite Hnf.
  - simpl flat_map in *. rewrite <- app_assoc in H0.
    destruct (figure_prints _ _ H0) as (self1 & F & H1 & O1).
    destruct fsc as [[f s] c]. cbn [clause_tokens app has_type type_ String.eqb Ascii.eqb Bool.eqb].
    rewrite F.
    destruct (IH _ _ _ H1 Hnf) as (self2 & F2 & O2).
    exists self2. split; [exact F2|]. rewrite O2, O1, <- app_assoc. reflexivity.
Qed.

Lemma start_keeps_stdout self self' : start self = Ok self' -> stdout self' = stdout self.
Proof.
  unfold start. intros H. apply bind_Ok in H as (ty & _ & H).
  apply bind_Ok in H as (cond & _ & H).
  destruct cond; [|discriminate]. now apply advance_Ok in H.
Qed.

Lemma end_keeps_stdout self self' : end_ self = Ok self' -> stdout self' = stdout self.
Proof.
  unfold end_. destruct (current_if self _); [|discriminate].
  intros H. apply bind_Ok in H as (s1 & A & H).
  destruct (current_token s1); [discriminate|]. injection H as <-.
  now apply advance_Ok in A.
Qed.

(** X6: on a token sequence that the validator accepts, it has printed
    one line per figure clause, in order: "Figure: <figure>(<size> <color>)",
    and nothing else. *)
Theorem validate_prints_one_line_per_figure :
  forall toks self,
    validate toks = Ok self ->
    exists clauses,
      toks = program clauses /\ stdout self = map figure_line clauses.
Proof.
  intros toks self V. pose proof (validate_spec toks) as S. rewrite V in S.
  destruct S as (clauses & -> & _). exists clauses. split; [reflexivity|].
  unfold validate, parse, program in V.
  destruct (init_at (START :: flat_map clause_tokens clauses ++ [END]))
    as (s0 & E0 & H0 & O0). rewrite E0 in V. cbn [bind] in V.
  destruct (start_complete H0) as (s1 & E1 & H1).
  pose proof (start_keeps_stdout _ E1) as O1. rewrite E1 in V. cbn [bind] in V.
  destruct (figure_sequence_prints clauses _ H1) as (s2 & E2 & O2); [reflexivity|].
  rewrite E2 in V. cbn [bind] in V.
  apply end_keeps_stdout in V. rewrite V, O2, O1, O0. reflexivity.
Qed.

Lemma validate_prints_witness :
  exists clauses,
    program [("addCircle", "3", "RED"); ("addSquare", "1", "BLUE")] = program clauses /\
    ["Figure: addCircle(3 RED)"; "Figure: addSquare(1 BLUE)"] = map figure_line clauses.
Proof.
  apply (@validate_prints_one_line_per_figure
           (program [("addCircle", "3", "RED"); ("addSquare", "1", "BLUE")])
           (mkAnalyzer (program [("addCircle", "3", "RED"); ("addSquare", "1", "BLUE")])
                      None 12 ["Figure: addCircle(3 RED)"; "Figure: addSquare(1 BLUE)"])).
  vm_compute. reflexivity.
Defined.

(** The descriptions that the validator can put in a syntax error. *)
Definition expected_descriptions : list string :=
  ["START"; "( after FIGURE"; "SIZE"; "COLOR"; ")"; "END";
   "No extra tokens expected after END"].

(** [reported toks e]: [e] is the syntax error for a position of [toks]:
    it tells one of the descriptions and the token at that position, or
    [None] at the end of the input. *)
Definition reported (toks : list Token) (e : exn) : Prop :=
  exists expected pre rest,
    toks = pre ++ rest /\ In expected expected_descriptions /\
    e = SyntaxError (syntax_error_message expected (hd_error rest)).

Ltac report_at H :=
  let C := fresh "C" in
  cbn [bind]; unfold error; pose proof H as (_ & _ & C); rewrite C;
  match type of H with
  | at_ _ ?p ?r =>
      eexists; exists p, r; refine (conj _ (conj _ _)); cycle 2;
      [ reflexivity | rewrite <- ?app_assoc; reflexivity | simpl; tauto ]
  end.

Lemma figure_failure self pre t0 rest :
  at_ self pre (t0 :: rest) ->
  has_type "FIGURE" t0 = true ->
  match figure self with
  | Ok _ => True
  | Raise e => reported (pre ++ t0 :: rest) e
  end.
Proof.
  intros H0 E0. unfold figure.
  rewrite (current_if_at _ H0), E0.
  advance_cursor H0 s1 H1. rewrite (current_if_at _ H1).
  destruct rest as [|t1 rest]; [report_at H1|].
  destruct (is_token "SPECIALCHAR" "(" t1) eqn:E1; [|report_at H1].
  advance_cursor H1 s2 H2. rewrite (current_if_at _ H2).
  destruct rest as [|t2 rest]; [report_at H2|].
  destruct (has_type "SIZE" t2) eqn:E2; [|report_at H2].
  advance_cursor H2 s3 H3. rewrite (current_if_at _ H3).
  destruct rest as [|t3 rest]; [report_at H3|].
  destruct (has_type "COLOR" t3) eqn:E3; [|report_at H3].
  advance_cursor H3 s4 H4. rewrite (current_if_at _ H4).
  destruct rest as [|t4 rest]; [report_at H4|].
  destruct (is_token "SPECIALCHAR" ")" t4) eqn:E4; [|report_at H4].
  match goal with |- context [print s4 ?l] => pose proof (print_at l H4) as H5 end.
  advance_cursor H5 s5 H6. exact I.
Qed.

Lemma figure_sequence_failure n : forall self pre rest,
  length rest <= n ->
  at_ self pre rest ->
  match figure_sequence self with
  | Ok _ => True
  | Raise e => reported (pre ++ rest) e
  end.
Proof.
  induction n as [|n IH]; intros self pre rest Hn H0;
    rewrite figure_sequence_eq, (current_if_at _ H0).
  - destruct rest; [exact I | simpl in Hn; lia].
  - destruct rest as [|t rest]; [exact I|].
    destruct (has_type "FIGURE" t) eqn:E; [|exact I].
    pose proof (figure_failure H0 E) as F. pose proof (figure_spec H0) as S.
    destruct (figure self) as [self1|e]; [|exact F].
    destruct S as (fsc & rest1 & Hr & H1).
    assert (length rest1 <= n) as Hn1.
    { apply (f_equal (@length _)) in Hr. rewrite length_app, clause_tokens_length in Hr.
      simpl in Hr, Hn. lia. }
    specialize (IH self1 _ _ Hn1 H1).
    destruct (figure_sequence self1) as [self2|e]; [exact I|].
    rewrite Hr. now rewrite <- app_assoc in IH.
Qed.

Lemma validate_failure_reported toks e :
  toks <> [] -> validate toks = Raise e -> reported toks e.
Proof.
  intros Hne V.
  unfold validate, parse in V.
  destruct (init_at toks) as (s0 & E0 & H0 & _). rewrite E0 in V. cbn [bind] in V.
  pose proof (start_spec H0) as S.
  destruct (start s0) as [s1|e1] eqn:E1; cbn [bind] in V.
  - destruct S as (rest1 & -> & H1).
    pose proof (figure_sequence_failure (Nat.le_refl _) H1) as F.
    pose proof (figure_sequence_spec (Nat.le_refl _) H1) as FS.
    destruct (figure_sequence s1) as [s2|e2]; cbn [bind] in V.
    + destruct FS as (clauses & rest2 & -> & H2 & _).
      change (START :: flat_map clause_tokens clauses ++ rest2)
        with ([START] ++ flat_map clause_tokens clauses ++ rest2).
      rewrite app_assoc.
      unfold end_ in V. rewrite (current_if_at _ H2) in V.
      destruct rest2 as [|t rest2]; [injection V as <-; report_at H2|].
      destruct (is_token "KEYWORDS" "END" t); [|injection V as <-; report_at H2].
      destruct (advance_at H2) as (s3 & E3 & H3 & _).
      rewrite E3 in V. cbn [bind] in V.
      pose proof H3 as (_ & _ & C3). rewrite C3 in V.
      destruct rest2 as [|t' rest2]; [discriminate|]. simpl hd_error in V.
      injection V as <-.
      replace ((([START] ++ flat_map clause_tokens clauses) ++ t :: t' :: rest2))
        with ((([START] ++ flat_map clause_tokens clauses) ++ [t]) ++ t' :: rest2)
        by now rewrite <- !app_assoc.
      report_at H3.
    + injection V as <-. exact F.
  - injection V as <-. clear S.
    destruct toks as [|t toks]; [contradiction|].
    pose proof H0 as (_ & _ & C0). unfold start in E1. rewrite C0 in E1.
    simpl hd_error in E1. cbn [getattr_type_ getattr_value bind] in E1.
    destruct (String.eqb (type_ t) "KEYWORDS"); cbn [bind ret] in E1.
    + destruct (String.eqb (value t) "START").
      * destruct (advance_at H0) as (s1 & A & _). rewrite A in E1. discriminate.
      * injection E1 as <-. change (t :: toks) with ([] ++ t :: toks). report_at H0.
    + injection E1 as <-. change (t :: toks) with ([] ++ t :: toks). report_at H0.
Qed.

(** X7: on a token sequence that is not empty, a failure of the validator
    is the syntax error for a position of the sequence: its message tells
    what was expected there (START, "( after FIGURE", SIZE, COLOR, ")", END
    or no tokens after END) and the token found there, or None at the end
    of the input. The description FIGURE is never reported: where a figure
    could start and none does, END is expected. *)
Theorem validate_failure_names_a_position :
  forall toks e,
    toks <> [] ->
    validate toks = Raise e ->
    reported toks e /\
    forall found, e <> SyntaxError (syntax_error_message "FIGURE" found).
Proof.
  intros toks e Hne V.
  pose proof (validate_failure_reported Hne V) as R.
  split; [exact R|].
  intros found F. destruct R as (expected & pre & rest & _ & Hin & ->).
  unfold syntax_error_message in F. simpl in Hin.
  repeat destruct Hin as [<-|Hin]; try contradiction; simpl in F; discriminate F.
Qed.

Lemma validate_failure_witness :
  reported [START; mkToken "SIZE" "3"]
           (SyntaxError "Syntax error: expected END, found Token(SIZE, 3)") /\
  forall found,
    SyntaxError "Syntax error: expected END, found Token(SIZE, 3)"
    <> SyntaxError (syntax_error_message "FIGURE" found).
Proof.
  apply validate_failure_names_a_position.
  - discriminate.
  - vm_compute. reflexivity.
Defined.

(** X8: a token sequence whose first token is not the keyword START is
    rejected with the syntax error that expects START and shows that first
    token. *)
Theorem validate_requires_START_first :
  forall t rest,
    t <> START ->
    validate (t :: rest) = Raise (SyntaxError (syntax_error_message "START" (Some t))).
Proof.
  intros t rest Ht. unfold validate, parse.
  destruct (init_at (t :: rest)) as (s0 & -> & H0 & _). cbn [bind].
  pose proof H0 as (_ & _ & C0). unfold start. rewrite C0.
  simpl hd_error. cbn [getattr_type_ getattr_value bind].
  destruct (String.eqb (type_ t) "KEYWORDS") eqn:E1; cbn [bind ret].
  - destruct (String.eqb (value t) "START") eqn:E2.
    + exfalso. apply Ht. apply is_token_true. unfold is_token. now rewrite E1, E2.
    + unfold error. now rewrite C0.
  - unfold error. now rewrite C0.
Qed.

Lemma validate_requires_START_witness :
  validate [mkToken "FIGURE" "addCircle"; END]
  = Raise (SyntaxError "Syntax error: expected START, found Token(FIGURE, addCircle)").
Proof.
  apply (@validate_requires_START_first (mkToken "FIGURE" "addCircle") [END]).
  discriminate.
Defined.

(** ** The reducer on arbitrary token sequences *)

Lemma analyze_token_names figs token b figs' :
  analyze_token figs token = Ok (b, figs') ->
  map figure_name figs' = map figure_name figs ++ map value (figure_tokens [token]).
Proof.
  unfold analyze_token, figure_tokens. cbn [filter]. unfold has_type.
  destruct (String.eqb (type_ token) "FIGURE").
  { intros H; injection H as <- <-. now rewrite map_app. }
  cbn [map]. rewrite app_nil_r.
  destruct (list_snoc_cases figs) as [->|(l & [[n sz] c] & ->)].
  - destruct (String.eqb (type_ token) "SIZE");
      [intros H; injection H as <- <-; reflexivity|].
    destruct (String.eqb (type_ token) "COLOR");
      intros H; injection H as <- <-; reflexivity.
  - rewrite truthy_snoc, getitem_last.
    destruct (String.eqb (type_ token) "SIZE").
    { destruct sz as [sz|]; cbn [bind ret fst snd is_None].
      - intros H; injection H as <- <-. reflexivity.
      - rewrite setitem_last. cbn [bind ret].
        intros H; injection H as <- <-. now rewrite !map_app. }
    destruct (String.eqb (type_ token) "COLOR").
    { destruct c as [c|]; cbn [bind ret fst snd is_None].
      - intros H; injection H as <- <-. reflexivity.
      - rewrite setitem_last. cbn [bind ret].
        intros H; injection H as <- <-. now rewrite !map_app. }
    intros H; injection H as <- <-. reflexivity.
Qed.

Lemma analyze_loop_names rest : forall figs tr figs',
  analyze_loop figs rest = Ok (tr, figs') ->
  map figure_name figs' = map figure_name figs ++ map value (figure_tokens rest).
Proof.
  induction rest as [|token rest IH]; intros figs tr figs' H; simpl in H.
  - injection H as <- <-. simpl. now rewrite app_nil_r.
  - apply bind_Ok in H as ([b f1] & A & H). apply bind_Ok in H as ([tr2 f2] & L & H).
    injection H as <- <-. cbn [fst snd] in *.
    rewrite (IH _ _ _ L), (analyze_token_names _ _ A), <- app_assoc.
    f_equal. unfold figure_tokens. change (token :: rest) with ([token] ++ rest).
    now rewrite filter_app, map_app.
Qed.

(** X9: on every token sequence, grammar-valid or not, the reducer
    returns one triple per FIGURE token, named after it, in the order of
    the FIGURE tokens. *)
Theorem reduce_one_triple_per_figure_token :
  forall toks,
    exists figs,
      reduce toks = Ok figs /\
      map figure_name figs = map value (figure_tokens toks) /\
      length figs = length (figure_tokens toks).
Proof.
  intros toks. unfold reduce, analyze, analyze_trace, SemanticAnalyzer_init.
  cbn [figures sem_tokens].
  destruct (analyze_loop_total toks []) as (tr & figs & E). rewrite E. cbn [bind ret snd].
  exists figs. split; [reflexivity|].
  pose proof (analyze_loop_names _ _ E) as N. simpl in N.
  split; [exact N|]. apply (f_equal (@length _)) in N. now rewrite !length_map in N.
Qed.

(** A token that the reducer looks at. *)
Definition relevant (t : Token) : bool :=
  has_type "FIGURE" t || has_type "SIZE" t || has_type "COLOR" t.

Lemma analyze_loop_relevant rest : forall figs,
  (r <- analyze_loop figs (filter relevant rest);; ret (snd r))
  = (r <- analyze_loop figs rest;; ret (snd r)).
Proof.
  induction rest as [|token rest IH]; intros figs; [reflexivity|].
  cbn [filter]. destruct (relevant token) eqn:R.
  - cbn [analyze_loop].
    destruct (analyze_token figs token) as [[b f1]|e]; cbn [bind fst snd]; [|reflexivity].
    specialize (IH f1).
    destruct (analyze_loop f1 (filter relevant rest)) as [[t1 g1]|e1];
      destruct (analyze_loop f1 rest) as [[t2 g2]|e2]; cbn [bind ret fst snd] in *;
      congruence.
  - cbn [analyze_loop]. unfold relevant, has_type in R.
    apply orb_false_elim in R as [R R3]. apply orb_false_elim in R as [R1 R2].
    pose proof (@analyze_token_other (type_ token) (value token) figs R1 R2 R3) as A.
    rewrite token_eta in A. rewrite A. cbn [bind fst snd]. rewrite IH.
    destruct (analyze_loop figs rest) as [[t2 g2]|e2]; reflexivity.
Qed.

(** X10: the result of the reducer depends on the FIGURE, SIZE and COLOR
    tokens only: dropping every other token (keywords, parentheses, tokens
    of any unknown kind) from the sequence does not change it. *)
Theorem reduce_ignores_other_tokens :
  forall toks, reduce (filter relevant toks) = reduce toks.
Proof.
  intros toks. unfold reduce, analyze, analyze_trace, SemanticAnalyzer_init.
  cbn [figures sem_tokens]. apply analyze_loop_relevant.
Qed.

Lemma nth_error_snoc_cases {A} (l : list A) (x y : A) k :
  nth_error (l ++ [x]) k = Some y ->
  (nth_error l k = Some y /\ forall x', nth_error (l ++ [x']) k = Some y) \/
  (k = length l /\ y = x /\ forall x', nth_error (l ++ [x']) k = Some x').
Proof.
  intros H. destruct (Nat.lt_ge_cases k (length l)) as [Hk|Hk].
  - left. rewrite nth_error_app1 in H by exact Hk.
    split; [exact H|]. intros x'. now rewrite nth_error_app1.
  - right. rewrite nth_error_app2 in H by exact Hk.
    destruct (k - length l) as [|m] eqn:E; simpl in H.
    + assert (k = length l) as -> by lia. injection H as <-.
      repeat split. intros x'. now rewrite nth_error_app2, Nat.sub_diag by lia.
    + destruct m; discriminate.
Qed.

(** One token keeps the name of every triple, and its size once set. *)
Lemma analyze_token_keeps figs token b figs' k n sz c :
  analyze_token figs token = Ok (b, figs') ->
  nth_error figs k = Some (n, sz, c) ->
  exists sz' c',
    nth_error figs' k = Some (n, sz', c') /\ (forall s, sz = Some s -> sz' = Some s).
Proof.
  unfold analyze_token. intros H K.
  destruct (String.eqb (type_ token) "FIGURE").
  { injection H as <- <-. exists sz, c. split; [|auto].
    rewrite nth_error_app1; [exact K|]. apply nth_error_Some. congruence. }
  destruct (list_snoc_cases figs) as [->|(l & [[n0 sz0] c0] & ->)].
  { destruct k; discriminate. }
  rewrite truthy_snoc, getitem_last in H.
  apply nth_error_snoc_cases in K as [[K1 K2]|(-> & E & K2)].
  - assert (exists x', figs' = l ++ [x']) as (x' & ->).
    { destruct (String.eqb (type_ token) "SIZE").
      { destruct sz0; cbn [bind ret fst snd is_None] in H;
          rewrite ?setitem_last in H; cbn [bind ret] in H; injection H as <- <-; eauto. }
      destruct (String.eqb (type_ token) "COLOR").
      { destruct c0; cbn [bind ret fst snd is_None] in H;
          rewrite ?setitem_last in H; cbn [bind ret] in H; injection H as <- <-; eauto. }
      injection H as <- <-; eauto. }
    exists sz, c. split; [apply K2 | auto].
  - injection E as -> -> ->.
    destruct (String.eqb (type_ token) "SIZE").
    { destruct sz0 as [s0|]; cbn [bind ret fst snd is_None] in H;
        rewrite ?setitem_last in H; cbn [bind ret] in H; injection H as <- <-;
        do 2 eexists; (split; [apply K2|]); [auto | discriminate]. }
    destruct (String.eqb (type_ token) "COLOR").
    { destruct c0; cbn [bind ret fst snd is_None] in H;
        rewrite ?setitem_last in H; cbn [bind ret] in H; injection H as <- <-;
        do 2 eexists; (split; [apply K2|]); auto. }
    injection H as <- <-. do 2 eexists. split; [apply K2 | auto].
Qed.

Lemma analyze_loop_keeps rest : forall figs tr figs' k n sz c,
  analyze_loop figs rest = Ok (tr, figs') ->
  nth_error figs k = Some (n, sz, c) ->
  exists sz' c',
    nth_error figs' k = Some (n, sz', c') /\ (forall s, sz = Some s -> sz' = Some s).
Proof.
  induction rest as [|token rest IH]; intros figs tr figs' k n sz c H K; simpl in H.
  - injection H as <- <-. eauto.
  - apply bind_Ok in H as ([b f1] & A & H). apply bind_Ok in H as ([tr2 f2] & L & H).
    injection H as <- <-. cbn [fst snd] in *.
    destruct (@analyze_token_keeps _ _ _ _ _ _ _ _ A K) as (sz1 & c1 & K1 & S1).
    destruct (IH _ _ _ _ _ _ _ L K1) as (sz2 & c2 & K2 & S2).
    exists sz2, c2. split; [exact K2|]. intros s E. apply S2, S1, E.
Qed.

(** X11: what the reducer has bound stays bound as more tokens follow:
    the triple at a position of the result for a token sequence keeps its
    place and its figure name in the result for any longer sequence, and
    keeps its size once the size is set. (The color has no such
    guarantee.) *)
Theorem reduce_keeps_names_and_sizes :
  forall toks more figs figs' k n sz c,
    reduce toks = Ok figs ->
    reduce (toks ++ more) = Ok figs' ->
    nth_error figs k = Some (n, sz, c) ->
    exists sz' c',
      nth_error figs' k = Some (n, sz', c') /\ (forall s, sz = Some s -> sz' = Some s).
Proof.
  unfold reduce, analyze, analyze_trace, SemanticAnalyzer_init. cbn [figures sem_tokens].
  intros toks more figs figs' k n sz c R R' K.
  rewrite analyze_loop_app in R'.
  destruct (analyze_loop [] toks) as [[tr1 f1]|e1]; [|discriminate].
  cbn [bind ret fst snd] in R, R'. injection R as ->.
  destruct (analyze_loop figs more) as [[tr2 f2]|e2] eqn:L; [|discriminate].
  cbn [bind ret fst snd] in R'. injection R' as ->.
  exact (@analyze_loop_keeps _ _ _ _ _ _ _ _ L K).
Qed.

Lemma reduce_keeps_witness :
  exists sz' c',
    nth_error [("addCircle", Some "3", Some "RED")] 0 = Some ("addCircle", sz', c') /\
    (forall s, Some "3" = Some s -> sz' = Some s).
Proof.
  apply (@reduce_keeps_names_and_sizes
           [mkToken "FIGURE" "addCircle"; mkToken "SIZE" "3"]
           [mkToken "SIZE" "5"; mkToken "COLOR" "RED"]
           [("addCircle", Some "3", None)] [("addCircle", Some "3", Some "RED")]
           0 "addCircle" (Some "3") None).
  - vm_compute. reflexivity.
  - vm_compute. reflexivity.
  - reflexivity.
Defined.

(** ** The stages together *)


(** * compiler.py: the pattern generators *)

From Stdlib Require Import DecimalString.

(** The exceptions of the generators, and a call that may raise one. *)
Inductive gen_exn : Type :=
| TypeError (msg : string)
| KeyError (key : Z)
| ValueError (msg : string)
| ListIndexError (msg : string).

Inductive outcome (A : Type) : Type :=
| Returns (a : A)
| Raises (e : gen_exn).

Arguments Returns {A} a.
Arguments Raises {A} e.

(** str(n) for an int, as a format string renders it. *)
Definition str_int (n : Z) : string := NilZero.string_of_int (Z.to_int n).

(** len(l) as an int. *)
Definition len {A} (l : list A) : Z := Z.of_nat (length l).

(** A dict literal as the list of its items; [dict_get] is d.get(k). *)
Fixpoint dict_get {K V} (eqb : K -> K -> bool) (d : list (K * V)) (k : K) : option V :=
  match d with
  | [] => None
  | (k', v) :: d' => if eqb k' k then Some v else dict_get eqb d' k
  end.

(** d[k] on a dict with int keys. *)
Definition dict_item {V} (d : list (Z * V)) (k : Z) : outcome V :=
  match dict_get Z.eqb d k with
  | Some v => Returns v
  | None => Raises (KeyError k)
  end.

(** range(n). *)
Definition py_range (n : Z) : list Z := map Z.of_nat (seq 0 (Z.to_nat n)).

Definition hex_colors : list (string * string) :=
  [("RED", "#f70529"); ("PINK", "#feb1f1"); ("BLUE", "#648efd"); ("BLACK", "#000000")].

(** self.hex_colors.get(color); the color of a triple may be None, which
    is no key of the dict. *)
Definition hex_colors_get (color : option string) : option string :=
  match color with
  | Some name => dict_get String.eqb hex_colors name
  | None => None
  end.

(** What a generator returns: (steps, color_hex, name). *)
Definition crochet_pattern : Type := list string * option string * string.

Definition generate_circle (size : Z) (color : option string) : crochet_pattern :=
  let color := hex_colors_get color in
  let circle := ["1. 6 SC in magic ring"; "2. 6 INC (12 SC)"] in
  let circle :=
    fold_left
      (fun circle i =>
         let total_points := (18 + i * 6)%Z in
         let step := (str_int (i + 3) ++ ". (" ++ str_int (i + 1)
                        ++ " SC, 1 INC) *6 (" ++ str_int total_points ++ " SC)")%string in
         circle ++ [step])
      (py_range size) circle in
  let circle := circle ++ [(str_int (len circle + 1) ++ ". FO")%string] in
  (circle, color, "CIRCLE").

Definition NoneType_plus_int : gen_exn :=
  TypeError "unsupported operand type(s) for +: 'NoneType' and 'int'".

Definition generate_square (size : Z) (color : option string) : outcome crochet_pattern :=
  let color := hex_colors_get color in
  let initial_chains := [(1, 5); (2, 7); (3, 9); (4, 11); (5, 13)]%Z in
  match dict_get Z.eqb initial_chains size with
  | None => Raises NoneType_plus_int
  | Some chain =>
      let square :=
        [("1. " ++ str_int (chain + 1) ++ " chains")%string;
         ("2. " ++ str_int chain ++ " SC (starts since first stich)")%string] in
      let square :=
        fold_left
          (fun square _ =>
             square ++ [(str_int (len square + 1) ++ ". Chain 1, turn and "
                           ++ str_int chain ++ " SC.")%string])
          (py_range chain) square in
      let square := square ++ [(str_int (len square + 1) ++ ". FO")%string] in
      Returns (square, color, "SQUARE")
  end.

(** The loop of [generate_triangle], "while row <= final_row", as the
    [count] turns it still has to make from [row] on. *)
Fixpoint triangle_rows (count : nat) (row : Z) (triangle : list string)
  (current_stitches : Z) : list string :=
  match count with
  | O => triangle
  | S count' =>
      if (row mod 2 =? 1)%Z then
        triangle_rows count' (row + 1)
          (triangle ++ [(str_int row ++ ". Ch 1, turn. Sc in each st ["
                           ++ str_int current_stitches ++ " sts]")%string])
          current_stitches
      else
        let new_stitches := (current_stitches + 2)%Z in
        let middle_sts := (current_stitches - 2)%Z in
        triangle_rows count' (row + 1)
          (triangle ++ [(str_int row ++ ". Ch 1, turn. Inc, sc in next "
                           ++ str_int middle_sts ++ " sts, inc ["
                           ++ str_int new_stitches ++ " sts]")%string])
          new_stitches
  end.

Definition generate_triangle (size : Z) (color : option string) : crochet_pattern :=
  let color := hex_colors_get color in
  let final_row := (size * 2 + 1)%Z in
  let triangle :=
    ["1. Ch 2. Sc in the 2nd loop from hook [total 1 sts]";
     "2. Ch 1, turn. 3sc in the same space [3 sts]"] in
  let triangle := triangle_rows (Z.to_nat (final_row - 3 + 1)) 3 triangle 3 in
  let triangle := triangle ++ [(str_int (len triangle + 1) ++ ". FO")%string] in
  (triangle, color, "TRIANGLE").

(** A value of the dict total_stitches: an int, or the list of size 5. *)
Inductive stitch_count : Type :=
| Count (n : Z)
| Counts (l : list Z).

Definition generate_heart (size : Z) (color : option string) : outcome crochet_pattern :=
  let color := hex_colors_get color in
  let base_stitches := [(1, "sc"); (2, "hdc"); (3, "dc"); (4, "tr"); (5, "tr")]%Z in
  let initial_chains := [(1, 1); (2, 1); (3, 2); (4, 3); (5, 2)]%Z in
  match dict_item base_stitches size with
  | Raises e => Raises e
  | Returns base_stitch =>
  match dict_item initial_chains size with
  | Raises e => Raises e
  | Returns chains =>
  let total_stitches :=
    [(1, Count 6); (2, Count 9); (3, Count 11); (4, Count 13);
     (5, Counts [12; 22; 31])]%Z in
  match dict_item total_stitches size with
  | Raises e => Raises e
  | Returns stitches =>
  let pattern0 := ["1. Make a MC."] in
  let step := 2%Z in
  let body : outcome (list string) :=
    if (size =? 5)%Z then
      match stitches with
      | Counts (s0 :: _) =>
          Returns
            (pattern0 ++
             [(str_int step ++ ". Ch " ++ str_int chains ++ ", " ++ str_int s0
                 ++ " dc in MC, join with a sl st.")%string;
              (str_int (step + 1) ++ ". hdc 1 in first st, [dc 4] in next st, [hdc 1, sc 1] in next st, sc 1, ")%string;
              (str_int (step + 2) ++ ". sc inc 1, hdc 2, sc inc 1, sc 1, [sc 1, hdc 1] in next st, [dc 4] in next st, ")%string;
              (str_int (step + 3) ++ ". hdc 1, sl st.")%string;
              (str_int (step + 4) ++ ". sc 2, sc inc 3, sc 5, [sc 1, hdc 1] in next st, ch 1, [hdc 1, sc 1] ")%string;
              (str_int (step + 5) ++ ".in next st, sc 5, sc inc 3, sc 2, sl st.")%string])
      | Counts [] => Raises (ListIndexError "list index out of range")
      | Count _ => Raises (TypeError "'int' object is not subscriptable")
      end
    else
      match stitches with
      | Counts _ =>
          Raises (TypeError "unsupported operand type(s) for -: 'list' and 'int'")
      | Count stitches =>
          let pattern1 := pattern0 ++ [(str_int step ++ ". Ch " ++ str_int chains)%string] in
          let step := (step + 1)%Z in
          let side_stitches :=
            if (2 <=? size)%Z then ((stitches - 2) / 2)%Z else (stitches / 2)%Z in
          let pattern2 :=
            pattern1 ++ [(str_int step ++ ". " ++ base_stitch ++ " "
                            ++ str_int side_stitches)%string] in
          let step := (step + 1)%Z in
          let '(pattern3, step) :=
            if (2 <=? size)%Z
            then (pattern2 ++ [(str_int step ++ ". ch 1, " ++ base_stitch
                                  ++ " 1, ch 1")%string], (step + 1)%Z)
            else (pattern2, step) in
          let pattern4 :=
            pattern3 ++ [(str_int step ++ ". " ++ base_stitch ++ " "
                            ++ str_int side_stitches)%string] in
          let step := (step + 1)%Z in
          Returns (pattern4 ++ [(str_int step ++ ". sl st in MC.")%string])
      end in
  match body with
  | Raises e => Raises e
  | Returns pattern5 =>
      Returns
        (pattern5 ++
         [(str_int (len pattern5 + 1) ++ ". Pull the MC close.")%string;
          (str_int (len pattern5 + 2) ++ ". FO")%string],
         color, "HEART")
  end
  end end end.

Example generate_heart_1 :
  generate_heart 1 (Some "RED") =
  Returns (["1. Make a MC."; "2. Ch 1"; "3. sc 3"; "4. sc 3"; "5. sl st in MC.";
            "6. Pull the MC close."; "7. FO"], Some "#f70529", "HEART").
Proof. vm_compute. reflexivity. Qed.

Example generate_triangle_2 :
  generate_triangle 2 (Some "PINK") =
  (["1. Ch 2. Sc in the 2nd loop from hook [total 1 sts]";
    "2. Ch 1, turn. 3sc in the same space [3 sts]";
    "3. Ch 1, turn. Sc in each st [3 sts]";
    "4. Ch 1, turn. Inc, sc in next 1 sts, inc [5 sts]";
    "5. Ch 1, turn. Sc in each st [5 sts]";
    "6. FO"], Some "#feb1f1", "TRIANGLE").
Proof. vm_compute. reflexivity. Qed.

Section Builtins.

(** The builtin int(), applied to the size field of a triple: a string,
    or None. *)
Variable int : option string -> outcome Z.

(** [Compiler.generate_figures]: the loop over the triples, with the
    patterns generated so far. A triple whose command is none of the four
    is passed over. *)
Fixpoint generate_figures_loop (figures : list figure_t)
  (patterns : list crochet_pattern) : outcome (list crochet_pattern) :=
  match figures with
  | [] => Returns patterns
  | fig :: figures' =>
      let '(fig0, fig1, fig2) := fig in
      if String.eqb fig0 "addCircle" then
        match int fig1 with
        | Raises e => Raises e
        | Returns size =>
            generate_figures_loop figures' (patterns ++ [generate_circle size fig2])
        end
      else if String.eqb fig0 "addSquare" then
        match int fig1 with
        | Raises e => Raises e
        | Returns size =>
            match generate_square size fig2 with
            | Raises e => Raises e
            | Returns p => generate_figures_loop figures' (patterns ++ [p])
            end
        end
      else if String.eqb fig0 "addTriangle" then
        match int fig1 with
        | Raises e => Raises e
        | Returns size =>
            generate_figures_loop figures' (patterns ++ [generate_triangle size fig2])
        end
      else if String.eqb fig0 "addHeart" then
        match int fig1 with
        | Raises e => Raises e
        | Returns size =>
            match generate_heart size fig2 with
            | Raises e => Raises e
            | Returns p => generate_figures_loop figures' (patterns ++ [p])
            end
        end
      else generate_figures_loop figures' patterns
  end.

Definition generate_figures (figures : list figure_t) : outcome (list crochet_pattern) :=
  generate_figures_loop figures [].

End Builtins.

(** ** Numbered steps *)

(** [numbered_from n steps]: the steps are numbered [n], [n + 1], ... in
    order, each starting with its number, a full stop and a space. *)
Fixpoint numbered_from (n : Z) (steps : list string) : Prop :=
  match steps with
  | [] => True
  | step :: steps' =>
      (exists text, step = (str_int n ++ ". " ++ text)%string) /\
      numbered_from (n + 1) steps'
  end.

Lemma numbered_from_app a : forall n b,
  numbered_from n a -> numbered_from (n + len a) b -> numbered_from n (a ++ b).
Proof.
  induction a as [|x a IH]; intros n b Ha Hb; simpl.
  - unfold len in Hb. simpl in Hb. now rewrite Z.add_0_r in Hb.
  - destruct Ha as [Hx Ha]. split; [exact Hx|]. apply IH; [exact Ha|].
    unfold len in *. simpl length in Hb. rewrite Nat2Z.inj_succ in Hb.
    now replace (n + 1 + Z.of_nat (length a))%Z with (n + Z.succ (Z.of_nat (length a)))%Z by lia.
Qed.

Lemma len_app {A} (a b : list A) : len (a ++ b) = (len a + len b)%Z.
Proof. unfold len. rewrite length_app. lia. Qed.

Lemma py_range_succ n : (0 <= n)%Z -> py_range (n + 1) = py_range n ++ [n].
Proof.
  intros H. unfold py_range.
  replace (Z.to_nat (n + 1)) with (S (Z.to_nat n)) by lia.
  rewrite seq_S, map_app. simpl. now rewrite Z2Nat.id.
Qed.

Lemma py_range_nonpositive n : (n <= 0)%Z -> py_range n = [].
Proof. intros H. unfold py_range. now replace (Z.to_nat n) with 0 by lia. Qed.

Lemma len_map {A B} (f : A -> B) (l : list A) : len (map f l) = len l.
Proof. unfold len. now rewrite length_map. Qed.

Lemma len_py_range n : len (py_range n) = Z.max 0 n.
Proof. unfold len, py_range. rewrite length_map, length_seq. lia. Qed.

Lemma fold_left_append_map {A B} (f : B -> A) (l : list B) : forall init,
  fold_left (fun acc x => acc ++ [f x]) l init = init ++ map f l.
Proof.
  induction l as [|x l IH]; intros init; simpl.
  - now rewrite app_nil_r.
  - now rewrite IH, <- app_assoc.
Qed.

(** ** [generate_circle] *)

(** The step of round [r] of a circle, for [r] from 3 on. *)
Definition circle_round (r : Z) : string :=
  (str_int r ++ ". (" ++ str_int (r - 2) ++ " SC, 1 INC) *6 ("
     ++ str_int (6 * r) ++ " SC)")%string.

Lemma circle_steps size color :
  fst (fst (generate_circle size color)) =
  ["1. 6 SC in magic ring"; "2. 6 INC (12 SC)"]
    ++ map (fun i => circle_round (i + 3)) (py_range size)
    ++ [(str_int (3 + Z.max 0 size) ++ ". FO")%string].
Proof.
  unfold generate_circle. cbn [fst].
  rewrite (fold_left_append_map
             (fun i => (str_int (i + 3) ++ ". (" ++ str_int (i + 1)
                          ++ " SC, 1 INC) *6 (" ++ str_int (18 + i * 6) ++ " SC)")%string)).
  rewrite <- app_assoc. f_equal. f_equal.
  - apply map_ext. intros i. unfold circle_round.
    now replace (i + 3 - 2)%Z with (i + 1)%Z by lia;
      replace (6 * (i + 3))%Z with (18 + i * 6)%Z by lia.
  - rewrite len_app, len_map, len_py_range.
    change (len ["1. 6 SC in magic ring"; "2. 6 INC (12 SC)"]) with 2%Z.
    now replace (2 + Z.max 0 size + 1)%Z with (3 + Z.max 0 size)%Z by lia.
Qed.

Lemma numbered_rounds f m : forall k,
  (forall i, exists text, f i = (str_int (i + 3) ++ ". " ++ text)%string) ->
  numbered_from (Z.of_nat k + 3) (map f (map Z.of_nat (seq k m))).
Proof.
  induction m as [|m IH]; intros k Hf; simpl; [exact I|].
  split; [apply Hf|].
  replace (Z.of_nat k + 3 + 1)%Z with (Z.of_nat (S k) + 3)%Z by lia. now apply IH.
Qed.

(** X13: for every size and color, [generate_circle] returns 3 + max(0,
    size) steps, numbered 1, 2, ... in order; the last one is FO; round r,
    for r from 3 to size + 2, works (r - 2 SC, 1 INC) six times and
    announces 6 r stitches; the color is the hex code of the color name
    (None for an unknown name) and the name is CIRCLE. *)
Theorem generate_circle_steps :
  forall size color,
    let '(steps, hex, name) := generate_circle size color in
    len steps = (3 + Z.max 0 size)%Z /\
    numbered_from 1 steps /\
    last steps EmptyString = (str_int (len steps) ++ ". FO")%string /\
    (forall r, (3 <= r <= size + 2)%Z ->
               nth_error steps (Z.to_nat (r - 1)) = Some (circle_round r)) /\
    hex = hex_colors_get color /\ name = "CIRCLE".
Proof.
  intros size color.
  pose proof (circle_steps size color) as S.
  destruct (generate_circle size color) as [[steps hex] name] eqn:G.
  cbn [fst] in S.
  assert (len steps = (3 + Z.max 0 size)%Z) as L.
  { rewrite S, !len_app, len_map, len_py_range. unfold len. simpl length. lia. }
  split; [exact L|]. split; [|split; [|split]].
  - rewrite S. apply numbered_from_app.
    + simpl. split; [exists "6 SC in magic ring"; reflexivity|].
      split; [exists "6 INC (12 SC)"; reflexivity | exact I].
    + apply numbered_from_app.
      * change (1 + len ["1. 6 SC in magic ring"; "2. 6 INC (12 SC)"])%Z
          with (Z.of_nat 0 + 3)%Z.
        unfold py_range. apply numbered_rounds. intros i. unfold circle_round.
        eexists. reflexivity.
      * rewrite len_map, len_py_range.
        change (len ["1. 6 SC in magic ring"; "2. 6 INC (12 SC)"]) with 2%Z.
        replace (1 + 2 + Z.max 0 size)%Z with (3 + Z.max 0 size)%Z by lia.
        simpl. split; [|exact I]. eexists. reflexivity.
  - rewrite L, S, !app_assoc. apply last_last.
  - intros r Hr. rewrite S.
    replace (Z.to_nat (r - 1)) with (2 + Z.to_nat (r - 3)) by lia.
    cbn [app nth_error Nat.add].
    rewrite nth_error_app1 by (rewrite length_map; unfold py_range;
                               rewrite length_map, length_seq; lia).
    unfold py_range. rewrite map_map.
    rewrite nth_error_map, nth_error_seq.
    replace (Nat.ltb (Z.to_nat (r - 3)) (Z.to_nat size)) with true
      by (symmetry; apply Nat.ltb_lt; lia).
    simpl. do 2 f_equal. lia.
  - unfold generate_circle in G. injection G as _ <- <-. auto.
Qed.

Lemma generate_circle_witness :
  nth_error (fst (fst (generate_circle 3 (Some "RED")))) (Z.to_nat (5 - 1))
  = Some "5. (3 SC, 1 INC) *6 (30 SC)".
Proof.
  pose proof (generate_circle_steps 3 (Some "RED")) as H.
  destruct (generate_circle 3 (Some "RED")) as [[steps hex] name].
  destruct H as (_ & _ & _ & H & _). cbn [fst].
  rewrite (H 5%Z); [reflexivity | lia].
Defined.

(** ** [generate_triangle] *)

(** The step of row [r] of a triangle, for [r] from 3 on: an odd row has
    [r] stitches, an even row increases from [r - 1] to [r + 1]. *)
Definition triangle_row (r : Z) : string :=
  if (r mod 2 =? 1)%Z
  then (str_int r ++ ". Ch 1, turn. Sc in each st [" ++ str_int r ++ " sts]")%string
  else (str_int r ++ ". Ch 1, turn. Inc, sc in next " ++ str_int (r - 3)
          ++ " sts, inc [" ++ str_int (r + 1) ++ " sts]")%string.

(** The rows [row], [row + 1], ..., [count] of them. *)
Definition rows_from (row : Z) (count : nat) : list Z :=
  map (fun k => (row + Z.of_nat k)%Z) (seq 0 count).

Lemma rows_from_succ row count :
  rows_from row (S count) = row :: rows_from (row + 1) count.
Proof.
  unfold rows_from. cbn [seq map]. rewrite Z.add_0_r. f_equal.
  rewrite <- seq_shift, map_map. apply map_ext. intros k. lia.
Qed.

(** The loop keeps the stitch count in step with the row: before an odd
    row it is the row number, before an even row one less. *)
Lemma triangle_rows_closed count : forall row triangle current_stitches,
  current_stitches = (if (row mod 2 =? 1)%Z then row else row - 1)%Z ->
  triangle_rows count row triangle current_stitches
  = triangle ++ map triangle_row (rows_from row count).
Proof.
  induction count as [|count IH]; intros row triangle cs Hcs.
  - simpl. now rewrite app_nil_r.
  - rewrite rows_from_succ. cbn [triangle_rows map]. unfold triangle_row at 1.
    destruct (row mod 2 =? 1)%Z eqn:E; subst cs.
    + rewrite IH, <- app_assoc; [reflexivity|].
      apply Z.eqb_eq in E.
      replace ((row + 1) mod 2 =? 1)%Z with false; [lia|].
      symmetry. apply Z.eqb_neq. Z.div_mod_to_equations. lia.
    + rewrite IH, <- app_assoc.
      * cbn [app]. now replace (row - 1 - 2)%Z with (row - 3)%Z by lia;
          replace (row - 1 + 2)%Z with (row + 1)%Z by lia.
      * apply Z.eqb_neq in E.
        replace ((row + 1) mod 2 =? 1)%Z with true; [lia|].
        symmetry. apply Z.eqb_eq. Z.div_mod_to_equations. lia.
Qed.

Lemma triangle_steps size color :
  fst (fst (generate_triangle size color)) =
  ["1. Ch 2. Sc in the 2nd loop from hook [total 1 sts]";
   "2. Ch 1, turn. 3sc in the same space [3 sts]"]
    ++ map triangle_row (rows_from 3 (Z.to_nat (2 * size - 1)))
    ++ [(str_int (3 + Z.max 0 (2 * size - 1)) ++ ". FO")%string].
Proof.
  unfold generate_triangle. cbn [fst].
  replace (Z.to_nat (size * 2 + 1 - 3 + 1)) with (Z.to_nat (2 * size - 1)) by lia.
  rewrite triangle_rows_closed by reflexivity.
  rewrite <- app_assoc. do 2 f_equal.
  rewrite len_app, len_map. unfold rows_from. rewrite len_map.
  unfold len. rewrite length_seq. simpl length.
  now replace (Z.of_nat 2 + Z.of_nat (Z.to_nat (2 * size - 1)) + 1)%Z
    with (3 + Z.max 0 (2 * size - 1))%Z by lia.
Qed.

Lemma numbered_rows f count : forall row,
  (forall r, exists text, f r = (str_int r ++ ". " ++ text)%string) ->
  numbered_from row (map f (rows_from row count)).
Proof.
  induction count as [|count IH]; intros row Hf; [exact I|].
  rewrite rows_from_succ. cbn [map numbered_from]. split; [apply Hf | now apply IH].
Qed.

(** X14: for every size and color, [generate_triangle] returns
    3 + max(0, 2 size - 1) steps, numbered 1, 2, ... in order, the last
    one FO; row r, for r from 3 to 2 size + 1, is worked over r stitches
    when r is odd and increases from r - 1 to r + 1 stitches when r is
    even, so that the last row, 2 size + 1, has 2 size + 1 stitches; the
    color is the hex code of the color name and the name is TRIANGLE. *)
Theorem generate_triangle_steps :
  forall size color,
    let '(steps, hex, name) := generate_triangle size color in
    len steps = (3 + Z.max 0 (2 * size - 1))%Z /\
    numbered_from 1 steps /\
    last steps EmptyString = (str_int (len steps) ++ ". FO")%string /\
    (forall r, (3 <= r <= 2 * size + 1)%Z ->
               nth_error steps (Z.to_nat (r - 1)) = Some (triangle_row r)) /\
    hex = hex_colors_get color /\ name = "TRIANGLE".
Proof.
  intros size color.
  pose proof (triangle_steps size color) as S.
  destruct (generate_triangle size color) as [[steps hex] name] eqn:G.
  cbn [fst] in S.
  assert (len (rows_from 3 (Z.to_nat (2 * size - 1))) = Z.max 0 (2 * size - 1)) as LR.
  { unfold rows_from. rewrite len_map. unfold len. rewrite length_seq. lia. }
  assert (len steps = (3 + Z.max 0 (2 * size - 1))%Z) as L.
  { rewrite S, !len_app, len_map, LR. unfold len. simpl length. lia. }
  split; [exact L|]. split; [|split; [|split]].
  - rewrite S. apply numbered_from_app.
    + simpl. split; [eexists; reflexivity|]. split; [eexists; reflexivity | exact I].
    + apply numbered_from_app.
      * apply numbered_rows. intros r. unfold triangle_row.
        destruct (r mod 2 =? 1)%Z; eexists; reflexivity.
      * rewrite len_map, LR.
        change (len ["1. Ch 2. Sc in the 2nd loop from hook [total 1 sts]";
                     "2. Ch 1, turn. 3sc in the same space [3 sts]"]) with 2%Z.
        replace (1 + 2 + Z.max 0 (2 * size - 1))%Z
          with (3 + Z.max 0 (2 * size - 1))%Z by lia.
        simpl. split; [|exact I]. eexists. reflexivity.
  - rewrite L, S, !app_assoc. apply last_last.
  - intros r Hr. rewrite S.
    replace (Z.to_nat (r - 1)) with (2 + Z.to_nat (r - 3)) by lia.
    cbn [app nth_error Nat.add].
    rewrite nth_error_app1
      by (unfold rows_from; rewrite !length_map, length_seq; lia).
    unfold rows_from. rewrite map_map, nth_error_map, nth_error_seq.
    replace (Nat.ltb (Z.to_nat (r - 3)) (Z.to_nat (2 * size - 1))) with true
      by (symmetry; apply Nat.ltb_lt; lia).
    cbn [option_map Nat.add]. do 2 f_equal. lia.
  - unfold generate_triangle in G. injection G as _ <- <-. auto.
Qed.

Lemma generate_triangle_witness :
  nth_error (fst (fst (generate_triangle 2 None))) (Z.to_nat (5 - 1))
  = Some "5. Ch 1, turn. Sc in each st [5 sts]".
Proof.
  pose proof (generate_triangle_steps 2 None) as H.
  destruct (generate_triangle 2 None) as [[steps hex] name].
  destruct H as (_ & _ & _ & H & _). cbn [fst].
  rewrite (H 5%Z); [reflexivity | lia].
Defined.

(** ** [generate_square] and [generate_heart] *)

Ltac enum_rows r fuel k :=
  lazymatch fuel with
  | O => exfalso; lia
  | S ?fuel' =>
      let E := fresh "E" in
      destruct (Z.eq_dec r k) as [E|E];
      [ rewrite E; vm_compute; reflexivity
      | let k' := eval compute in (k + 1)%Z in enum_rows r fuel' k' ]
  end.

Ltac numbered_steps :=
  vm_compute; repeat (split; [eexists; reflexivity|]); exact I.

Lemma size_in_range size :
  (1 <= size <= 5)%Z ->
  size = 1%Z \/ size = 2%Z \/ size = 3%Z \/ size = 4%Z \/ size = 5%Z.
Proof. lia. Qed.

Lemma size_out_of_range {V} (v1 v2 v3 v4 v5 : V) size :
  ~ (1 <= size <= 5)%Z ->
  dict_get Z.eqb [(1, v1); (2, v2); (3, v3); (4, v4); (5, v5)]%Z size = None.
Proof.
  intros H. cbn [dict_get].
  repeat match goal with
  | |- context [(?k =? size)%Z] => destruct (Z.eqb_spec k size); [lia|]
  end.
  reflexivity.
Qed.

(** X15: for a size from 1 to 5, [generate_square] returns 2 size + 6
    steps, numbered 1, 2, ... in order: 2 size + 4 chains, then rows of
    2 size + 3 SC (the second step and every step from 3 to 2 size + 5),
    then FO; for any other size it raises the TypeError of None + 1, as
    the dict of initial chains has no entry. *)
Theorem generate_square_steps :
  forall size color,
    ((1 <= size <= 5)%Z ->
     exists steps,
       generate_square size color = Returns (steps, hex_colors_get color, "SQUARE") /\
       len steps = (2 * size + 6)%Z /\
       numbered_from 1 steps /\
       last steps EmptyString = (str_int (len steps) ++ ". FO")%string /\
       nth_error steps 0 = Some ("1. " ++ str_int (2 * size + 4) ++ " chains")%string /\
       forall r, (3 <= r <= 2 * size + 5)%Z ->
                 nth_error steps (Z.to_nat (r - 1))
                 = Some (str_int r ++ ". Chain 1, turn and "
                           ++ str_int (2 * size + 3) ++ " SC.")%string) /\
    (~ (1 <= size <= 5)%Z -> generate_square size color = Raises NoneType_plus_int).
Proof.
  intros size color. split.
  - intros H. apply size_in_range in H.
    destruct H as [->|[->|[->|[->| ->]]]];
      (eexists; split; [reflexivity|];
       split; [reflexivity|]; split; [numbered_steps|];
       split; [reflexivity|]; split; [reflexivity|]; intros r Hr).
    + enum_rows r 5 3%Z.
    + enum_rows r 7 3%Z.
    + enum_rows r 9 3%Z.
    + enum_rows r 11 3%Z.
    + enum_rows r 13 3%Z.
  - intros H. unfold generate_square. now rewrite size_out_of_range.
Qed.

Lemma generate_square_witness :
  (exists steps,
      generate_square 1 (Some "BLUE")
      = Returns (steps, hex_colors_get (Some "BLUE"), "SQUARE") /\
      len steps = (2 * 1 + 6)%Z /\ numbered_from 1 steps /\
      last steps EmptyString = (str_int (len steps) ++ ". FO")%string /\
      nth_error steps 0 = Some ("1. " ++ str_int (2 * 1 + 4) ++ " chains")%string /\
      forall r, (3 <= r <= 2 * 1 + 5)%Z ->
                nth_error steps (Z.to_nat (r - 1))
                = Some (str_int r ++ ". Chain 1, turn and "
                          ++ str_int (2 * 1 + 3) ++ " SC.")%string) /\
  generate_square 6 (Some "BLUE") = Raises NoneType_plus_int.
Proof.
  split.
  - apply (proj1 (generate_square_steps 1 (Some "BLUE"))). lia.
  - apply (proj2 (generate_square_steps 6 (Some "BLUE"))). lia.
Defined.

(** X16: for a size from 1 to 5, [generate_heart] returns 7 steps for
    size 1, 9 for size 5 and 8 otherwise, starting with the magic circle
    and ending with "Pull the MC close." and FO, numbered with the count of
    the steps; for sizes 1 to 4 the steps are numbered 1, 2, ... in order.
    For any other size it raises KeyError(size). *)
Theorem generate_heart_steps :
  forall size color,
    ((1 <= size <= 5)%Z ->
     exists steps,
       generate_heart size color = Returns (steps, hex_colors_get color, "HEART") /\
       len steps = (if (size =? 1)%Z then 7 else if (size =? 5)%Z then 9 else 8)%Z /\
       nth_error steps 0 = Some "1. Make a MC." /\
       nth_error steps (Z.to_nat (len steps - 2))
       = Some (str_int (len steps - 1) ++ ". Pull the MC close.")%string /\
       last steps EmptyString = (str_int (len steps) ++ ". FO")%string /\
       (size <> 5%Z -> numbered_from 1 steps)) /\
    (~ (1 <= size <= 5)%Z -> generate_heart size color = Raises (KeyError size)).
Proof.
  intros size color. split.
  - intros H. apply size_in_range in H.
    destruct H as [->|[->|[->|[->| ->]]]];
      (eexists; split; [reflexivity|];
       split; [reflexivity|]; split; [reflexivity|]; split; [reflexivity|];
       split; [reflexivity|]; intros Hs);
      try numbered_steps.
    contradiction.
  - intros H. unfold generate_heart, dict_item. now rewrite size_out_of_range.
Qed.

Lemma generate_heart_witness :
  (exists steps,
      generate_heart 3 (Some "PINK")
      = Returns (steps, hex_colors_get (Some "PINK"), "HEART") /\
      len steps = (if (3 =? 1)%Z then 7 else if (3 =? 5)%Z then 9 else 8)%Z /\
      nth_error steps 0 = Some "1. Make a MC." /\
      nth_error steps (Z.to_nat (len steps - 2))
      = Some (str_int (len steps - 1) ++ ". Pull the MC close.")%string /\
      last steps EmptyString = (str_int (len steps) ++ ". FO")%string /\
      (3%Z <> 5%Z -> numbered_from 1 steps)) /\
  generate_heart 0 (Some "PINK") = Raises (KeyError 0).
Proof.
  split.
  - apply (proj1 (generate_heart_steps 3 (Some "PINK"))). lia.
  - apply (proj2 (generate_heart_steps 0 (Some "PINK"))). lia.
Defined.

(** ** [generate_figures] *)

Lemma generate_square_returns size color :
  (1 <= size <= 5)%Z ->
  exists steps, generate_square size color = Returns (steps, hex_colors_get color, "SQUARE").
Proof.
  intros H. apply size_in_range in H.
  destruct H as [->|[->|[->|[->| ->]]]]; eexists; reflexivity.
Qed.

Lemma generate_heart_returns size color :
  (1 <= size <= 5)%Z ->
  exists steps, generate_heart size color = Returns (steps, hex_colors_get color, "HEART").
Proof.
  intros H. apply size_in_range in H.
  destruct H as [->|[->|[->|[->| ->]]]]; eexists; reflexivity.
Qed.

Lemma hex_of_color_text c :
  In c color_texts -> exists hex, hex_colors_get (Some c) = Some hex.
Proof.
  simpl. intros H. repeat destruct H as [<-|H]; try contradiction; eexists; reflexivity.
Qed.

(** The name under which the pattern of a command is drawn. *)
Definition display_name (command : string) : string :=
  if String.eqb command "addCircle" then "CIRCLE"
  else if String.eqb command "addSquare" then "SQUARE"
  else if String.eqb command "addTriangle" then "TRIANGLE"
  else "HEART".

(** [drawn fg p]: [p] is a pattern for the triple [fg]: it carries the
    display name of its command and the hex code of its color. *)
Definition drawn (fg : figure_t) (p : crochet_pattern) : Prop :=
  exists steps hex,
    p = (steps, Some hex, display_name (figure_name fg)) /\
    hex_colors_get (snd fg) = Some hex.

(** int() reads the five size digits as the numbers 1 to 5. *)
Definition reads_sizes (int : option string -> outcome Z) : Prop :=
  int (Some "1") = Returns 1%Z /\ int (Some "2") = Returns 2%Z /\
  int (Some "3") = Returns 3%Z /\ int (Some "4") = Returns 4%Z /\
  int (Some "5") = Returns 5%Z.

Lemma reads_size_text int s :
  reads_sizes int -> In s size_texts ->
  exists size, int (Some s) = Returns size /\ (1 <= size <= 5)%Z.
Proof.
  intros (H1 & H2 & H3 & H4 & H5) H. simpl in H.
  repeat destruct H as [<-|H]; try contradiction; eexists; (split; [eassumption | lia]).
Qed.

Lemma generate_figures_loop_well_filled int figs :
  reads_sizes int ->
  Forall well_filled figs ->
  forall patterns,
  exists drawn_patterns,
    generate_figures_loop int figs patterns = Returns (patterns ++ drawn_patterns) /\
    Forall2 drawn figs drawn_patterns.
Proof.
  intros Hint H. induction H as [|fg figs Hfg _ IH]; intros patterns.
  - exists []. rewrite app_nil_r. split; [reflexivity | constructor].
  - destruct Hfg as (f & s & c & -> & Hf & Hs & Hc).
    destruct (reads_size_text Hint Hs) as (size & Hsize & Hrange).
    destruct (hex_of_color_text Hc) as (hex & Hhex).
    destruct (generate_square_returns (Some c) Hrange) as (sq & Hsq).
    destruct (generate_heart_returns (Some c) Hrange) as (ht & Hht).
    cbn [generate_figures_loop]. rewrite Hsize, Hsq, Hht.
    simpl in Hf.
    assert (forall p, drawn (f, Some s, Some c) p ->
              exists drawn_patterns,
                generate_figures_loop int figs (patterns ++ [p])
                = Returns (patterns ++ drawn_patterns) /\
                Forall2 drawn ((f, Some s, Some c) :: figs) drawn_patterns) as Step.
    { intros p Hp. destruct (IH (patterns ++ [p])) as (ps & E & F).
      exists (p :: ps). rewrite E, <- app_assoc. split; [reflexivity|].
      constructor; assumption. }
    destruct Hf as [<-|[<-|[<-|[<-|[]]]]];
      cbn [String.eqb Ascii.eqb Bool.eqb]; apply Step;
      red; cbn [snd figure_name fst]; unfold display_name;
      cbn [String.eqb Ascii.eqb Bool.eqb]; rewrite ?Hhex.
    + unfold generate_circle. rewrite Hhex. eauto.
    + eauto.
    + unfold generate_triangle. rewrite Hhex. eauto.
    + eauto.
Qed.

Lemma compile_well_filled code figs :
  compile code = Ok figs -> Forall well_filled figs.
Proof.
  unfold compile, compile_with. intros C.
  destruct (lex code) as [toks|e] eqn:L; [|discriminate]. cbn [bind] in C.
  pose proof (validate_spec toks) as S.
  destruct (validate toks) as [self|e]; [|discriminate]. cbn [bind] in C.
  destruct S as (clauses & -> & _). rewrite reduce_program in C.
  cbn [bind ret] in C. injection C as <-.
  pose proof (@lex_tokens_literal _ code _ (Nat.le_refl _) L) as F.
  rewrite Forall_forall in F.
  apply Forall_forall. intros fg Hfg. apply in_map_iff in Hfg as ([[f s] c] & <- & Hin).
  destruct (clause_tokens_in_program _ _ _ _ Hin) as (Hf & Hs & Hc).
  apply F in Hf, Hs, Hc. simpl in Hf, Hs, Hc.
  exists f, s, c. split; [reflexivity|].
  split; [|split].
  - now apply (literal_vocabulary Hf).
  - now apply (literal_vocabulary Hs).
  - now apply (literal_vocabulary Hc).
Qed.

(** X17: provided int() reads the digits 1 to 5 as the numbers 1 to 5,
    [generate_figures] never raises on the figures of a source text that
    compiled: it returns one pattern per figure, in order, each with the
    display name of its command and the hex code of its color (never
    None). *)
Theorem generate_figures_after_compile :
  forall int code figs,
    reads_sizes int ->
    compile code = Ok figs ->
    exists patterns,
      generate_figures int figs = Returns patterns /\
      Forall2 drawn figs patterns.
Proof.
  intros int code figs Hint C. apply compile_well_filled in C.
  destruct (generate_figures_loop_well_filled Hint C []) as (ps & E & F).
  exists ps. split; [exact E | exact F].
Qed.

(** A function that agrees with int() on None and on the five size
    digits, the arguments that matter here; on other strings it is not
    meant to be int(). *)
Definition int_of_size_digit (o : option string) : outcome Z :=
  match o with
  | None =>
      Raises (TypeError "int() argument must be a string, a bytes-like object or a real number, not 'NoneType'")
  | Some s =>
      match dict_get String.eqb
              [("1", 1); ("2", 2); ("3", 3); ("4", 4); ("5", 5)]%Z s with
      | Some n => Returns n
      | None => Raises (ValueError "invalid literal for int() with base 10")
      end
  end.

Lemma generate_figures_after_compile_witness :
  exists patterns,
    generate_figures int_of_size_digit
      [("addCircle", Some "3", Some "RED"); ("addSquare", Some "1", Some "BLUE")]
    = Returns patterns /\
    Forall2 drawn
      [("addCircle", Some "3", Some "RED"); ("addSquare", Some "1", Some "BLUE")]
      patterns.
Proof.
  apply (@generate_figures_after_compile int_of_size_digit
           "START addCircle(3 RED) addSquare(1 BLUE) END").
  - repeat split.
  - vm_compute. reflexivity.
Defined.

(** A triple whose command is one of the four. *)
Definition known_command (fg : figure_t) : bool :=
  existsb (String.eqb (figure_name fg)) figure_texts.

Lemma generate_figures_loop_known int figs : forall patterns,
  generate_figures_loop int (filter known_command figs) patterns
  = generate_figures_loop int figs patterns.
Proof.
  induction figs as [|[[f s] c] figs IH]; intros patterns; [reflexivity|].
  cbn [filter]. unfold known_command at 1. cbn [figure_name fst existsb figure_texts].
  destruct (String.eqb f "addCircle") eqn:E1.
  { cbn [orb generate_figures_loop]. rewrite E1.
    destruct (int s); [apply IH | reflexivity]. }
  destruct (String.eqb f "addSquare") eqn:E2.
  { cbn [orb generate_figures_loop]. rewrite E1, E2.
    destruct (int s); [|reflexivity]. destruct (generate_square _ _); [apply IH | reflexivity]. }
  destruct (String.eqb f "addTriangle") eqn:E3.
  { cbn [orb generate_figures_loop]. rewrite E1, E2, E3.
    destruct (int s); [apply IH | reflexivity]. }
  destruct (String.eqb f "addHeart") eqn:E4.
  { cbn [orb generate_figures_loop]. rewrite E1, E2, E3, E4.
    destruct (int s); [|reflexivity]. destruct (generate_heart _ _); [apply IH | reflexivity]. }
  cbn [orb generate_figures_loop]. rewrite E1, E2, E3, E4. apply IH.
Qed.

(** X18: [generate_figures] passes over every triple whose command is
    none of addCircle, addSquare, addTriangle, addHeart: such a triple
    gives no pattern and no error, and its size is not even converted, so
    the result is that for the list without these triples. *)
Theorem generate_figures_skips_unknown_commands :
  forall int figs,
    generate_figures int (filter known_command figs) = generate_figures int figs.
Proof. intros int figs. apply generate_figures_loop_known. Qed.

(** ** Blank source texts *)

Lemma strip_layout_empty s : strip_layout s = EmptyString -> all_layout s = true.
Proof.
  induction s as [|c s IH]; [reflexivity|]. simpl.
  destruct (is_layout c); [exact IH | discriminate].
Qed.

Lemma validate_nil : validate [] = Raise NoneType_has_no_type_.
Proof. vm_compute. reflexivity. Qed.

(** X19: [compile] fails with the AttributeError of [start] exactly on
    the source texts that hold nothing but spaces, tabs and newlines (the
    empty text among them): these are the texts that tokenize to no token
    at all. *)
Theorem blank_source_raises_AttributeError :
  forall code,
    (all_layout code = true <-> lex code = Ok []) /\
    (all_layout code = true <-> compile code = Raise NoneType_has_no_type_).
Proof.
  intros code.
  assert (all_layout code = true <-> lex code = Ok []) as B.
  { split.
    - intros H. rewrite <- (append_empty_r code). now rewrite lex_layout.
    - intros L. apply strip_layout_empty.
      now rewrite <- (@lex_token_texts _ code [] (Nat.le_refl _) L). }
  split; [exact B|]. rewrite B. unfold compile, compile_with. split.
  - intros ->. cbn [bind]. now rewrite validate_nil.
  - intros C. destruct (lex code) as [toks|e] eqn:L; cbn [bind] in C.
    + pose proof (validate_spec toks) as S.
      destruct (validate toks) as [self|e]; cbn [bind] in C.
      * destruct S as (clauses & -> & _). rewrite reduce_program in C. discriminate.
      * injection C as ->. destruct S as [[-> _]|[_ (x & y & S)]];
          [reflexivity | discriminate].
    + injection C as ->.
      destruct (@lex_Raise_inv _ code _ (Nat.le_refl _) L)
        as (pre & c & post & toks & _ & _ & _ & _ & E).
      discriminate.
Qed.
